(** * graph-drawing-js: spring-embedder layout of a directed graph

    A shallow embedding of [lib/vector-math.js], [lib/graph.js],
    [lib/canvas.js] and the animation loop of [main.js].

    - JavaScript numbers are kept abstract behind the interface [Number], with
      two instances: IEEE binary64 ([float], what the program runs on) and the
      real numbers ([R], the arithmetic the force equations are written in).
      Everything that does not look inside a number is proved once, for every
      instance.
    - Reading [positions[i]] past the end of an array gives [undefined], and
      the vector functions destructure their arguments, which throws a
      [TypeError]: a function that can throw returns an [option].
    - Arrays are objects: the generator of [runLayout] holds a reference to the
      current snapshot and yields that reference, so snapshots live in a store
      and the generator is a state machine over it.
    - [Math.random] is a stateful global: the store carries the number of
      draws made so far, and a run is given the sequence of values the source
      returns.
    - The loop counter [i] and [iterations] are integers ([Z]); a binary64
      counter is exact up to 2^53.
    - Drawing is a sequence of calls on the 2D context: the functions of
      [canvas.js] return the calls they make, and the loop of [main.js]
      returns its frames.

    Part I is the embedding, Part II the vocabulary of the statements,
    Part III the theorems, Part IV further properties of the code. *)

From Stdlib Require Import ZArith Reals Lra Psatz Floats.
From stdpp Require Import base option list.

(** * Part I: the program *)

(** ** Numbers *)

Declare Scope num_scope.
Delimit Scope num_scope with num.

(** The arithmetic the sources use: [+ - * /], [Math.sqrt], [Math.log] and the
    literals that occur in them. *)
Class Number (num : Type) : Type := {
  num_add : num -> num -> num;
  num_sub : num -> num -> num;
  num_mul : num -> num -> num;
  num_div : num -> num -> num;
  Math_sqrt : num -> num;
  Math_log : num -> num;
  lit_0 : num;
  lit_0_4 : num;
  lit_0_5 : num;
  lit_1 : num;
  lit_2 : num;
  lit_100 : num
}.

Infix "+" := num_add : num_scope.
Infix "-" := num_sub : num_scope.
Infix "*" := num_mul : num_scope.
Infix "/" := num_div : num_scope.

(** The reals. *)
#[export] Instance R_Number : Number R := {|
  num_add := Rplus;
  num_sub := Rminus;
  num_mul := Rmult;
  num_div := Rdiv;
  Math_sqrt := R_sqrt.sqrt;
  Math_log := ln;
  lit_0 := 0%R;
  lit_0_4 := (4 / 10)%R;
  lit_0_5 := (5 / 10)%R;
  lit_1 := 1%R;
  lit_2 := 2%R;
  lit_100 := 100%R
|}.

(** IEEE binary64.  [Math.log] is implementation-approximated in ECMAScript
    and is no primitive of [float]; the instance takes it as an argument.
    [0x1.999999999999ap-2] is the binary64 value of the literal [0.4]. *)
Definition float_Number (log : float -> float) : Number float := {|
  num_add := PrimFloat.add;
  num_sub := PrimFloat.sub;
  num_mul := PrimFloat.mul;
  num_div := PrimFloat.div;
  Math_sqrt := PrimFloat.sqrt;
  Math_log := log;
  lit_0 := 0%float;
  lit_0_4 := 0x1.999999999999ap-2%float;
  lit_0_5 := 0.5%float;
  lit_1 := 1%float;
  lit_2 := 2%float;
  lit_100 := 100%float
|}.

(** ** lib/vector-math.js *)

Module V.

(** [{x: number, y: number}] *)
Record vec (num : Type) : Type := mk { x : num; y : num }.
Arguments mk {num} _ _.
Arguments x {num} _.
Arguments y {num} _.

Section VectorMath.
Context {num : Type} `{!Number num}.
Local Open Scope num_scope.

Definition add (u v : vec num) : vec num :=
  let '(mk x1 y1) := u in
  let '(mk x2 y2) := v in
  mk (x1 + x2) (y1 + y2).

Definition sub (u v : vec num) : vec num :=
  let '(mk x1 y1) := u in
  let '(mk x2 y2) := v in
  mk (x1 - x2) (y1 - y2).

Definition scalarMult (a : num) (v : vec num) : vec num :=
  let '(mk x y) := v in
  mk (a * x) (a * y).

Definition length (v : vec num) : num :=
  let '(mk x y) := v in
  Math_sqrt (x * x + y * y).

Definition norm (v : vec num) : vec num :=
  let '(mk x y) := v in
  scalarMult (lit_1 / length (mk x y)) (mk x y).

End VectorMath.

End V.

Abbreviation vec := V.vec.

(** ** lib/graph.js: the graph model *)

Abbreviation adjacency := (list (list nat)).

Record edge : Type := mkEdge { from : nat; to : nat }.

Definition getVertices (adjacencyList : adjacency) : list nat :=
  imap (fun vertex _ => vertex) adjacencyList.

Definition getEdges (adjacencyList : adjacency) : list edge :=
  mjoin (imap (fun from row => (fun to => mkEdge from to) <$> row) adjacencyList).

Definition getAdjacentVertices (adjacencyList : adjacency) (vertex : nat) : list nat :=
  let outbound := default [] (adjacencyList !! vertex) in
  let inbound :=
    mjoin (imap (fun from vertices =>
                   if bool_decide (vertex ∈ vertices) then [from] else [])
                adjacencyList) in
  outbound ++ inbound.

(** ** lib/graph.js: the force model and one layout step *)

(** [Array.prototype.reduce] with a callback that may throw. *)
Fixpoint reduceM {A B : Type} (f : A -> B -> option A) (l : list B) (acc : A) : option A :=
  match l with
  | [] => Some acc
  | b :: l' => acc' ← f acc b; reduceM f l' acc'
  end.

Section Layout.
Context {num : Type} `{!Number num}.
Local Open Scope num_scope.

Definition calculateSpringForce (u v : vec num) (optimumDistance : num) : vec num :=
  let uToV := V.sub v u in
  let magnitude := optimumDistance * Math_log (V.length uToV / optimumDistance) in
  V.scalarMult magnitude (V.norm uToV).

Definition calculateRepulsion (u v : vec num) (optimumDistance : num) : vec num :=
  let uToV := V.sub u v in
  let magnitude := optimumDistance / V.length uToV in
  V.scalarMult magnitude (V.norm uToV).

(** The callback of [vertices.map] in [makeLayout]: the new position of one
    vertex.  [None] is the [TypeError] of destructuring [undefined]. *)
Definition layoutVertex (adjacencyList : adjacency) (optimumDistance : num)
    (positions : list (vec num)) (vertex : nat) : option (vec num) :=
  let damping := lit_0_4 in
  let vertices := getVertices adjacencyList in
  let adjacentVertices := getAdjacentVertices adjacencyList vertex in
  localAttraction ←
    reduceM (fun acc adjacent =>
               pos1 ← positions !! vertex;
               pos2 ← positions !! adjacent;
               let attraction := calculateSpringForce pos1 pos2 optimumDistance in
               Some (V.add acc attraction))
            adjacentVertices (V.mk lit_0 lit_0);
  globalRepulsion ←
    reduceM (fun acc global =>
               pos1 ← positions !! vertex;
               pos2 ← positions !! global;
               let repulsion := calculateRepulsion pos1 pos2 optimumDistance in
               Some (V.add acc repulsion))
            (filter (fun current => current ≠ vertex) vertices) (V.mk lit_0 lit_0);
  let force := V.scalarMult damping (V.add localAttraction globalRepulsion) in
  pos ← positions !! vertex;
  Some (V.add force pos).

Definition makeLayout (adjacencyList : adjacency) (optimumDistance : num)
    (positions : list (vec num)) : option (list (vec num)) :=
  let vertices := getVertices adjacencyList in
  mapM (layoutVertex adjacencyList optimumDistance positions) vertices.

End Layout.

(** ** lib/graph.js: the generator [runLayout] *)

(** The store: the snapshot arrays allocated so far, a reference being an
    index into [heap], and how many values [Math.random] has returned. *)
Record World (num : Type) : Type := mkWorld {
  heap : list (list (vec num));
  draws : nat
}.
Arguments mkWorld {num} _ _.
Arguments heap {num} _.
Arguments draws {num} _.

(** Where the generator body is suspended: not started yet, at the loop test
    with counter [i] and the variable [positions] holding a reference, or
    completed. *)
Inductive gen_state : Type :=
  | GenStart
  | GenLoop (i : Z) (positions : nat)
  | GenDone.

(** What one call of the generator's [next()] gives: [{value, done: false}],
    [{done: true}], or an exception. *)
Inductive gen_result : Type :=
  | Yielded (value : nat)
  | Finished
  | Thrown.

Record Generator (num : Type) : Type := mkGenerator {
  adjacencyList : adjacency;
  vertexDistance : num;
  iterations : Z;
  state : gen_state
}.
Arguments mkGenerator {num} _ _ _ _.
Arguments adjacencyList {num} _.
Arguments vertexDistance {num} _.
Arguments iterations {num} _.
Arguments state {num} _.

Section RunLayout.
Context {num : Type} `{!Number num}.
Local Open Scope num_scope.

Definition suspend (g : Generator num) (st : gen_state) : Generator num :=
  mkGenerator (adjacencyList g) (vertexDistance g) (iterations g) st.

(** Calling [runLayout] runs nothing of the body; an argument left out (or
    [undefined]) takes its default. *)
Definition runLayout (adjacencyList : adjacency) (vertexDistance : option num)
    (iterations : option Z) : Generator num :=
  mkGenerator adjacencyList (default lit_100 vertexDistance)
    (default 1000%Z iterations) GenStart.

(** [vertices.map(() => ({x: (Math.random() - 0.5) * 2 * vertexDistance, y: ...}))]:
    two draws per vertex, [x] first; [random n] is the [n]-th value of the
    source and [drawn] counts the draws made. *)
Fixpoint randomPositions (random : nat -> num) (vertexDistance : num)
    (vertices : list nat) (drawn : nat) : list (vec num) * nat :=
  match vertices with
  | [] => ([], drawn)
  | _ :: vertices' =>
      let x := (random drawn - lit_0_5) * lit_2 * vertexDistance in
      let y := (random (S drawn) - lit_0_5) * lit_2 * vertexDistance in
      let '(rest, drawn') :=
        randomPositions random vertexDistance vertices' (S (S drawn)) in
      (V.mk x y :: rest, drawn')
  end.

(** One call of [next()]: the body runs to the following [yield], to its end,
    or to an exception.  A reference held by the generator is always
    allocated; the lookup failing stands with the exception case. *)
Definition next (random : nat -> num) (w : World num) (g : Generator num)
    : gen_result * World num * Generator num :=
  match state g with
  | GenStart =>
      let vertices := getVertices (adjacencyList g) in
      let '(positions, drawn) :=
        randomPositions random (vertexDistance g) vertices (draws w) in
      let ref := length (heap w) in
      (Yielded ref, mkWorld (heap w ++ [positions]) drawn,
       suspend g (GenLoop 0 ref))
  | GenLoop i positions =>
      if (i <? iterations g)%Z then
        match heap w !! positions
              ≫= makeLayout (adjacencyList g) (vertexDistance g) with
        | Some positions' =>
            let ref := length (heap w) in
            (Yielded ref, mkWorld (heap w ++ [positions']) (draws w),
             suspend g (GenLoop (i + 1) ref))
        | None => (Thrown, w, suspend g GenDone)
        end
      else (Finished, w, suspend g GenDone)
  | GenDone => (Finished, w, g)
  end.

(** A consumer calling [next()] [n] times. *)
Fixpoint pull (random : nat -> num) (n : nat) (w : World num) (g : Generator num)
    : list gen_result * World num * Generator num :=
  match n with
  | O => ([], w, g)
  | S n' =>
      let '(r, w', g') := next random w g in
      let '(rs, w'', g'') := pull random n' w' g' in
      (r :: rs, w'', g'')
  end.

End RunLayout.

(** ** The graph of [main.js] *)

Definition exampleAdjacencyList : adjacency :=
  [ []; [0; 2]; [3; 4; 5]; [6]; []; []; [7; 8]; []; [9; 10]; []; [] ].

(** ** lib/vector-math.js: [rotate] *)

(** What [rotate] and [canvas.js] use besides [Number]: [Math.cos],
    [Math.sin], [Math.PI], unary minus and the literal [5]. *)
Class Trig (num : Type) : Type := {
  Math_cos : num -> num;
  Math_sin : num -> num;
  Math_PI : num;
  num_opp : num -> num;
  lit_5 : num
}.

#[export] Instance R_Trig : Trig R := {|
  Math_cos := cos;
  Math_sin := sin;
  Math_PI := PI;
  num_opp := Ropp;
  lit_5 := 5%R
|}.

(** binary64; the engine's [Math.cos] and [Math.sin] are parameters, as
    [Math.log] is. *)
Definition float_Trig (cos sin : float -> float) : Trig float := {|
  Math_cos := cos;
  Math_sin := sin;
  Math_PI := 0x1.921fb54442d18p+1%float;
  num_opp := PrimFloat.opp;
  lit_5 := 5%float
|}.

Section Rotate.
Context {num : Type} `{!Number num, !Trig num}.
Local Open Scope num_scope.

Definition rotate (angle : num) (v : vec num) : vec num :=
  let '(V.mk x y) := v in
  V.mk (Math_cos angle * x - Math_sin angle * y)
       (Math_sin angle * x + Math_cos angle * y).

End Rotate.

(** ** lib/canvas.js *)

(** The calls made on the 2D context, in order. *)
Inductive command (num : Type) : Type :=
  | beginPath
  | arc (x y radius startAngle endAngle : num)
  | fill
  | moveTo (x y : num)
  | lineTo (x y : num)
  | stroke
  | closePath
  | clearRect (x y w h : num).
Arguments beginPath {num}.
Arguments arc {num} _ _ _ _ _.
Arguments fill {num}.
Arguments moveTo {num} _ _.
Arguments lineTo {num} _ _.
Arguments stroke {num}.
Arguments closePath {num}.
Arguments clearRect {num} _ _ _ _.

(** The object [initCanvas] returns. *)
Record Canvas (num : Type) : Type := mkCanvas {
  drawVertex : vec num -> list (command num);
  drawEdge : vec num -> vec num -> list (command num);
  clear : list (command num)
}.
Arguments mkCanvas {num} _ _ _.
Arguments drawVertex {num} _ _.
Arguments drawEdge {num} _ _ _.
Arguments clear {num} _.

Section Canvas.
Context {num : Type} `{!Number num, !Trig num}.
Local Open Scope num_scope.

(** [canvas_width] and [canvas_height] are [canvas.width] and
    [canvas.height], set when the module is loaded. *)
Definition initCanvas (canvas_width canvas_height : num) (vertexRadius : option num)
    : Canvas num :=
  let vertexRadius := default lit_5 vertexRadius in
  let drawVertex := fun '(V.mk x y) =>
    [beginPath; arc x y vertexRadius lit_0 (lit_2 * Math_PI); fill] in
  let drawEdge := fun '(V.mk x1 y1) '(V.mk x2 y2) =>
    let tip := V.mk x2 y2 in
    let tail := V.mk x1 y1 in
    let tipToHead := V.scalarMult vertexRadius (V.norm (V.sub tail tip)) in
    let headPoint := V.add tip tipToHead in
    let headBase := V.add headPoint tipToHead in
    let headRight :=
      V.add headBase
        (V.scalarMult (lit_1 / lit_2) (rotate (Math_PI / lit_2) tipToHead)) in
    let headLeft :=
      V.add headBase
        (V.scalarMult (lit_1 / lit_2) (rotate (num_opp Math_PI / lit_2) tipToHead)) in
    [beginPath; moveTo x1 y1; lineTo x2 y2; stroke;
     beginPath;
     moveTo (V.x headPoint) (V.y headPoint);
     lineTo (V.x headLeft) (V.y headLeft);
     lineTo (V.x headRight) (V.y headRight);
     closePath; stroke; fill] in
  let clear :=
    [clearRect (num_opp canvas_width / lit_2) (num_opp canvas_height / lit_2)
               canvas_width canvas_height] in
  mkCanvas drawVertex drawEdge clear.

End Canvas.

(** ** main.js: the animation loop *)

(** How a piece of code ends: normally, or with an uncaught exception. *)
Inductive completion : Type :=
  | Returned
  | Threw.

Section Main.
Context {num : Type} `{!Number num, !Trig num}.

(** [edges.map(({from, to}) => [positions[from], positions[to]])]; [None] is
    [undefined]. *)
Definition edgePositions (positions : list (vec num)) (edges : list edge)
    : list (option (vec num) * option (vec num)) :=
  (fun e => (positions !! from e, positions !! to e)) <$> edges.

(** [.forEach(neighbors => drawEdge(...neighbors))]: [drawEdge] destructures
    both arguments before it draws, so an [undefined] end throws with
    nothing of that edge drawn. *)
Fixpoint forEachDrawEdge (canvas : Canvas num)
    (neighbors : list (option (vec num) * option (vec num)))
    : list (command num) * completion :=
  match neighbors with
  | [] => ([], Returned)
  | (Some tail, Some tip) :: rest =>
      let '(drawn, c) := forEachDrawEdge canvas rest in
      (drawEdge canvas tail tip ++ drawn, c)
  | _ :: _ => ([], Threw)
  end.

(** The body of the loop (the pause between frames left out): the context
    calls it makes and how it ends. *)
Definition drawFrame (canvas : Canvas num) (edges : list edge)
    (positions : list (vec num)) : list (command num) * completion :=
  let cleared := clear canvas in
  let vertices := mjoin (drawVertex canvas <$> positions) in
  let '(arrows, c) := forEachDrawEdge canvas (edgePositions positions edges) in
  (cleared ++ vertices ++ arrows, c).

(** [for (const positions of runLayout(...)) { ... }]: the frames drawn and
    how the loop ends; [fuel] bounds the number of [next()] calls. *)
Fixpoint animate (fuel : nat) (random : nat -> num) (canvas : Canvas num)
    (edges : list edge) (w : World num) (g : Generator num)
    : option (list (list (command num)) * completion) :=
  match fuel with
  | O => None
  | S fuel' =>
      let '(r, w', g') := next random w g in
      match r with
      | Yielded ref =>
          match heap w' !! ref with
          | Some positions =>
              let '(frame, c) := drawFrame canvas edges positions in
              match c with
              | Returned =>
                  '(frames, c') ← animate fuel' random canvas edges w' g';
                  Some (frame :: frames, c')
              | Threw => Some ([frame], Threw)
              end
          | None => Some ([], Threw)
          end
      | Finished => Some ([], Returned)
      | Thrown => Some ([], Threw)
      end
  end.

(** [main.js] once the tests have passed; [alert("finished")] follows
    [Returned]. *)
Definition main (fuel : nat) (random : nat -> num) (canvas_width canvas_height : num)
    : option (list (list (command num)) * completion) :=
  let adjacencyList := exampleAdjacencyList in
  let edges := getEdges adjacencyList in
  let canvas := initCanvas canvas_width canvas_height None in
  animate fuel random canvas edges (mkWorld [] 0) (runLayout adjacencyList None None).

End Main.

(** ** lib/testing.js: the test driver *)

(** What is written to the console; [args], [actual] and [expected] stand
    for the texts [JSON.stringify] renders. *)
Inductive message (name value : Type) : Type :=
  | console_error (func : name) (args actual expected : value)
  | console_log (func : name) (args actual : value)
  | console_info (source : name)
  | console_warn (member source : name).
Arguments console_error {name value} _ _ _ _.
Arguments console_log {name value} _ _ _.
Arguments console_info {name value} _.
Arguments console_warn {name value} _ _.

Section Testing.
Context {name value : Type}.

(** A [verbose] argument is a boolean or [undefined] ([None]), which is
    falsy. *)
Definition truthy (verbose : option bool) : bool := default false verbose.

(** A test returns its verdict and what it wrote to the console. *)
Definition assert (func : name) (successful : bool) (args actual expected : value)
    (verbose : option bool) : bool * list (message name value) :=
  let verbose := default true verbose in
  (successful,
   if negb successful then [console_error func args actual expected]
   else if verbose then [console_log func args actual]
   else []).

(** [testee.test], as [attachTests] sets it: [tests.reduce((allGood, test) =>
    allGood && test.bind(testee)(verbose), true)]. *)
Definition attachTests {T : Type} (testee : T)
    (tests : list (T -> option bool -> bool * list (message name value)))
    : option bool -> bool * list (message name value) :=
  fun verbose =>
    foldl (fun '(allGood, console) test =>
             if allGood : bool then
               let '(result, written) := test testee verbose in
               (result, console ++ written)
             else (false, console))
          (true, []) tests.

(** [testModule] on a module that has been loaded: [module] lists the
    exported members in order, each with its [test] function if it has
    one.  Loading the module and its failure are left out. *)
Definition testModule (source : name)
    (module : list (name * option (option bool -> bool * list (message name value))))
    (verbose : option bool) : bool * list (message name value) :=
  let started := if truthy verbose then [console_info source] else [] in
  foldl (fun '(allGood, console) '(member, test) =>
           let '(result, written) :=
             match test with
             | Some test => test verbose
             | None =>
                 (true, if truthy verbose then [console_warn member source] else [])
             end in
           (result && allGood, console ++ written))
        (true, started) module.

Definition runTests (source : name)
    (module : list (name * option (option bool -> bool * list (message name value))))
    (verbose : option bool) : bool * list (message name value) :=
  let verbose := default false verbose in
  testModule source module (Some verbose).

End Testing.

(** * Part II: the vocabulary of the statements *)

(** Addition commutes, on binary64 as on the reals. *)
Class NumberLaws (num : Type) `{!Number num} : Prop := {
  num_add_comm : forall a b : num, num_add a b = num_add b a
}.

(** The invariant of the data model: every target is a vertex. *)
Definition wellFormed (adjacencyList : adjacency) : Prop :=
  Forall (Forall (fun target => target < length adjacencyList)) adjacencyList.

#[export] Instance wellFormed_dec adjacencyList : Decision (wellFormed adjacencyList).
Proof. unfold wellFormed. apply _. Defined.

(** The inbound sources of [vertex], with the row index shifted by [k]. *)
Definition inboundFrom (k : nat) (adjacencyList : adjacency) (vertex : nat) : list nat :=
  mjoin (imap (fun from vertices =>
                 if bool_decide (vertex ∈ vertices) then [k + from] else [])
              adjacencyList).

(** How often [v] occurs in a sequence. *)
Definition occurrences (v : nat) (l : list nat) : nat :=
  length (filter (fun w => w = v) l).

(** The vertices other than [vertex], in order: those before it, then those
    after it. *)
Definition otherVertices (n vertex : nat) : list nat :=
  seq 0 vertex ++ seq (S vertex) (n - S vertex).

Section Vocabulary.
Context {num : Type} `{!Number num}.
Local Open Scope num_scope.

#[export] Instance vec_inhabited : Inhabited (vec num) :=
  populate (V.mk lit_0 lit_0).

(** The vector sum of a sequence of forces, accumulated from the left from
    the zero vector. *)
Definition vectorSum (forces : list (vec num)) : vec num :=
  foldl V.add (V.mk lit_0 lit_0) forces.

(** The position the step gives a vertex at [pos] when the snapshot is
    [positions]: the damped force, added to [pos]. *)
Definition relaxed (adjacencyList : adjacency) (optimumDistance : num)
    (positions : list (vec num)) (vertex : nat) (pos : vec num) : vec num :=
  let localAttraction :=
    vectorSum ((fun n => calculateSpringForce pos (positions !!! n) optimumDistance)
                 <$> getAdjacentVertices adjacencyList vertex) in
  let globalRepulsion :=
    vectorSum ((fun w => calculateRepulsion pos (positions !!! w) optimumDistance)
                 <$> otherVertices (length adjacencyList) vertex) in
  V.add (V.scalarMult lit_0_4 (V.add localAttraction globalRepulsion)) pos.

(** The initial position of vertex [i] when [drawn] values had been drawn
    before the run started. *)
Definition initialPosition (random : nat -> num) (vertexDistance : num)
    (drawn i : nat) : vec num :=
  V.mk ((random (drawn + 2 * i)%nat - lit_0_5) * lit_2 * vertexDistance)
       ((random (S (drawn + 2 * i))%nat - lit_0_5) * lit_2 * vertexDistance).

(** The snapshots the loop of [runLayout] produces from [positions] in [n]
    iterations; the list ends early where a step throws. *)
Fixpoint steps (adjacencyList : adjacency) (optimumDistance : num) (n : nat)
    (positions : list (vec num)) : list (list (vec num)) :=
  match n with
  | O => []
  | S n' =>
      match makeLayout adjacencyList optimumDistance positions with
      | Some positions' =>
          positions' :: steps adjacencyList optimumDistance n' positions'
      | None => []
      end
  end.

End Vocabulary.

(** Inputs for the instances of the theorems. *)

Definition twoVertices : adjacency := [[1]; []].

Definition apart : list (vec R) := [V.mk 0%R 0%R; V.mk 3%R 4%R].

(** A source that returns 1/2, 1/3, 1/4, ... *)
Definition reciprocals (n : nat) : R := (/ (INR n + 2))%R.

(** A source that agrees with [reciprocals] on its first four values and
    returns 0 afterwards. *)
Definition reciprocalsThenZero (n : nat) : R :=
  if (n <? 4)%nat then reciprocals n else 0%R.

(** [u] lists [v] as a target. *)
Definition lists (adjacencyList : adjacency) (u v : nat) : Prop :=
  ∃ row, adjacencyList !! u = Some row ∧ v ∈ row.


(** The generator holds a reference to an allocated snapshot of N positions. *)
Definition validGenerator {num : Type} (w : World num) (g : Generator num) : Prop :=
  match state g with
  | GenLoop _ ref =>
      ∃ positions, heap w !! ref = Some positions
                   ∧ length positions = length (adjacencyList g)
  | _ => True
  end.

(** [{x: NaN, y: NaN}] *)
Definition nanVec : vec float := V.mk nan nan.

(** A position with a NaN coordinate. *)
Definition hasNaN (v : vec float) : Prop := V.x v = nan ∨ V.y v = nan.



(** More inputs for the instances: a row that names a vertex that does not
    exist, and a vertex that lists itself. *)

Definition danglingTarget : adjacency := [[1]].

Definition selfLoop : adjacency := [[0]].

(** The verdict and the console output of tests run in order up to the
    first one that fails. *)
Fixpoint untilFailure {name value : Type}
    (results : list (bool * list (message name value)))
    : bool * list (message name value) :=
  match results with
  | [] => (true, [])
  | (result, written) :: rest =>
      if result then
        let '(result', written') := untilFailure rest in
        (result', written ++ written')
      else (false, written)
  end.

(** A test that ends in [return assert(this, successful, args, actual,
    expected, verbose)], as the tests of [vector-math.js] do. *)
Definition reportsThroughAssert {name value T : Type}
    (test : T -> option bool -> bool * list (message name value)) : Prop :=
  ∀ testee verbose, ∃ func successful args actual expected,
    test testee verbose = assert func successful args actual expected verbose.

(** Two tests that report through [assert], one passing and one failing,
    with numbers for the names and the rendered values. *)

Definition passingTest (testee : unit) (verbose : option bool)
    : bool * list (message nat nat) :=
  assert 1 true 0 0 0 verbose.

Definition failingTest (testee : unit) (verbose : option bool)
    : bool * list (message nat nat) :=
  assert 2 false 0 0 1 verbose.

(** * Part III: theorems *)

(** ** The laws of the two number instances *)

#[export] Instance R_NumberLaws : NumberLaws R.
Proof. constructor. exact Rplus_comm. Qed.

Lemma float_add_comm (a b : float) : (a + b)%float = (b + a)%float.
Proof.
  apply Prim2SF_inj. rewrite !add_spec.
  destruct (Prim2SF a) as [[]|[]| |sa ma ea], (Prim2SF b) as [[]|[]| |sb mb eb];
    try reflexivity.
  unfold SF64add, SFadd. rewrite Z.min_comm. f_equal. apply Z.add_comm.
Qed.

#[export] Instance float_NumberLaws (log : float -> float) :
  @NumberLaws float (float_Number log).
Proof. constructor. exact float_add_comm. Qed.

(** ** The graph model *)

Lemma getVertices_seq (adjacencyList : adjacency) :
  getVertices adjacencyList = seq 0 (length adjacencyList).
Proof.
  unfold getVertices. rewrite (imap_seq_0 adjacencyList (fun vertex => vertex)).
  apply list_fmap_id.
Qed.

Lemma length_getVertices (adjacencyList : adjacency) :
  length (getVertices adjacencyList) = length adjacencyList.
Proof. now rewrite getVertices_seq, length_seq. Qed.

(** C3, as stated, fails: the run of [getEdges] on the graph of [main.js] does
    not have 8 pairs. *)
Lemma getEdges_example_not_8_pairs :
  length (getEdges exampleAdjacencyList) ≠ 8.
Proof. vm_compute. discriminate. Qed.

(** C3 (amended): on [[[],[0,2],[3,4,5],[6],[],[],[7,8],[],[9,10],[],[]]]
    [getEdges] yields exactly 10 pairs, (1,0),(1,2),(2,3),(2,4),(2,5),(3,6),
    (6,7),(6,8),(8,9),(8,10), row by row and in each row's target order. *)
Theorem getEdges_example :
  getEdges exampleAdjacencyList =
    [ mkEdge 1 0; mkEdge 1 2; mkEdge 2 3; mkEdge 2 4; mkEdge 2 5; mkEdge 3 6;
      mkEdge 6 7; mkEdge 6 8; mkEdge 8 9; mkEdge 8 10 ]
  ∧ length (getEdges exampleAdjacencyList) = 10.
Proof. split; reflexivity. Qed.

Lemma inboundFrom_cons k row adjacencyList vertex :
  inboundFrom k (row :: adjacencyList) vertex =
    (if bool_decide (vertex ∈ row) then [k] else [])
      ++ inboundFrom (S k) adjacencyList vertex.
Proof.
  unfold inboundFrom. simpl. rewrite Nat.add_0_r. f_equal. f_equal.
  apply imap_ext. intros i vs _. simpl. now rewrite Nat.add_succ_r.
Qed.

Lemma elem_of_inboundFrom k adjacencyList vertex u :
  u ∈ inboundFrom k adjacencyList vertex ↔
  ∃ i row, u = k + i ∧ adjacencyList !! i = Some row ∧ vertex ∈ row.
Proof.
  revert k. induction adjacencyList as [|row adj IH]; intros k.
  - unfold inboundFrom. simpl. split.
    + intros Hin. inversion Hin.
    + intros (i & r & _ & Hl & _). discriminate.
  - rewrite inboundFrom_cons, elem_of_app, IH. split.
    + intros [Hin | (i & r & -> & Hl & Hv)].
      * case_bool_decide as Hv; [|inversion Hin].
        apply list_elem_of_singleton in Hin as ->.
        exists 0, row. rewrite Nat.add_0_r. auto.
      * exists (S i), r. split; [lia | auto].
    + intros ([|i] & r & -> & Hl & Hv); simpl in Hl.
      * left. injection Hl as ->. rewrite bool_decide_eq_true_2 by done.
        rewrite Nat.add_0_r. apply list_elem_of_singleton. reflexivity.
      * right. exists i, r. split; [lia | auto].
Qed.

Lemma NoDup_inboundFrom k adjacencyList vertex :
  NoDup (inboundFrom k adjacencyList vertex).
Proof.
  revert k. induction adjacencyList as [|row adj IH]; intros k.
  - constructor.
  - rewrite inboundFrom_cons. case_bool_decide; simpl; [|apply IH].
    constructor; [|apply IH].
    rewrite elem_of_inboundFrom. intros (i & r & Hk & _). lia.
Qed.

Lemma getAdjacentVertices_inboundFrom adjacencyList vertex :
  getAdjacentVertices adjacencyList vertex =
    default [] (adjacencyList !! vertex) ++ inboundFrom 0 adjacencyList vertex.
Proof. reflexivity. Qed.

Lemma occurrences_app v l1 l2 :
  occurrences v (l1 ++ l2) = occurrences v l1 + occurrences v l2.
Proof. unfold occurrences. now rewrite filter_app, length_app. Qed.

Lemma occurrences_NoDup v l :
  NoDup l → occurrences v l = if bool_decide (v ∈ l) then 1 else 0.
Proof.
  unfold occurrences. induction 1 as [|w l Hw Hl IH]; [reflexivity|].
  destruct (decide (w = v)) as [->|Hne].
  - rewrite filter_cons_True by done. simpl. rewrite IH.
    rewrite (bool_decide_eq_false_2 (v ∈ l)) by done.
    rewrite bool_decide_eq_true_2 by constructor. reflexivity.
  - rewrite filter_cons_False by done. rewrite IH.
    apply f_equal with (f := fun b : bool => if b then 1 else 0).
    apply bool_decide_ext. rewrite elem_of_cons.
    split; [auto | intros [Heq|Hin]; [congruence|assumption]].
Qed.

(** C6: the neighbours of a vertex are its outbound targets, as listed,
    followed by its inbound sources, each source once; so [v] occurs among the
    neighbours of [u] as often as [u] lists [v], plus once when [v] lists [u]
    (however often).  Vertex 2 of the graph of [main.js] has the neighbours
    3, 4, 5 (outbound) and 1 (inbound). *)
Theorem getAdjacentVertices_outbound_then_inbound :
  (∀ (adjacencyList : adjacency) (u : nat),
     ∃ inbound,
       getAdjacentVertices adjacencyList u
         = default [] (adjacencyList !! u) ++ inbound
       ∧ NoDup inbound
       ∧ (∀ w, w ∈ inbound ↔
               ∃ row, adjacencyList !! w = Some row ∧ u ∈ row)
       ∧ (∀ v, occurrences v (getAdjacentVertices adjacencyList u)
               = occurrences v (default [] (adjacencyList !! u))
                 + (if bool_decide (u ∈ default [] (adjacencyList !! v))
                    then 1 else 0)))
  ∧ getAdjacentVertices [[1; 1]; []] 0 = [1; 1]
  ∧ getAdjacentVertices [[1; 1]; []] 1 = [0]
  ∧ getAdjacentVertices exampleAdjacencyList 2 = [3; 4; 5; 1].
Proof.
  split; [|repeat split; reflexivity].
  intros adj u. exists (inboundFrom 0 adj u).
  assert (Hin : ∀ w, w ∈ inboundFrom 0 adj u ↔
                     ∃ row, adj !! w = Some row ∧ u ∈ row).
  { intros w. rewrite elem_of_inboundFrom. split.
    - intros (i & r & -> & Hl & Hu). eauto.
    - intros (r & Hl & Hu). exists w, r. auto. }
  split; [apply getAdjacentVertices_inboundFrom|].
  split; [apply NoDup_inboundFrom|].
  split; [exact Hin|].
  intros v. rewrite getAdjacentVertices_inboundFrom, occurrences_app.
  f_equal. rewrite occurrences_NoDup by apply NoDup_inboundFrom.
  apply f_equal with (f := fun b : bool => if b then 1 else 0).
  apply bool_decide_ext. rewrite Hin. destruct (adj !! v) as [row|]; simpl.
  - split; [intros (r & [= <-] & Hu); done | eauto].
  - split; [intros (r & [=] & _) | intros Hu; inversion Hu].
Qed.

(** ** One layout step *)

Lemma getAdjacentVertices_lt adjacencyList vertex n :
  wellFormed adjacencyList →
  n ∈ getAdjacentVertices adjacencyList vertex → n < length adjacencyList.
Proof.
  intros Hwf. rewrite getAdjacentVertices_inboundFrom, elem_of_app.
  intros [Hout | Hin].
  - destruct (adjacencyList !! vertex) as [row|] eqn:Hrow; simpl in Hout.
    + unfold wellFormed in Hwf. rewrite Forall_lookup in Hwf.
      specialize (Hwf _ _ Hrow). rewrite Forall_forall in Hwf. auto.
    + inversion Hout.
  - apply elem_of_inboundFrom in Hin as (i & row & -> & Hrow & _).
    apply lookup_lt_Some in Hrow. lia.
Qed.

Lemma filter_all {A : Type} (P : A → Prop) `{!∀ a, Decision (P a)} (l : list A) :
  Forall P l → filter P l = l.
Proof.
  induction 1 as [|a l Ha Hl IH]; [reflexivity|].
  rewrite filter_cons_True by assumption. now rewrite IH.
Qed.

Lemma filter_seq_ne (n vertex : nat) :
  vertex < n →
  filter (fun current => current ≠ vertex) (seq 0 n) = otherVertices n vertex.
Proof.
  intros Hlt. unfold otherVertices.
  replace n with (vertex + (1 + (n - S vertex))) at 1 by lia.
  rewrite !seq_app, !filter_app. simpl.
  rewrite filter_cons_False by (intros Hne; apply Hne; reflexivity).
  rewrite filter_nil. simpl. f_equal.
  - apply filter_all, Forall_forall. intros w Hw.
    apply elem_of_seq in Hw. lia.
  - rewrite Nat.add_1_r. apply filter_all, Forall_forall. intros w Hw.
    apply elem_of_seq in Hw. lia.
Qed.

Lemma elem_of_otherVertices (n vertex w : nat) :
  vertex < n → w ∈ otherVertices n vertex ↔ w < n ∧ w ≠ vertex.
Proof.
  intros Hlt. unfold otherVertices. rewrite elem_of_app, !elem_of_seq. lia.
Qed.

Lemma reduceM_Some_foldl {A B : Type} (f : A → B → option A) (g : A → B → A)
    (l : list B) (acc : A) :
  (∀ a b, b ∈ l → f a b = Some (g a b)) →
  reduceM f l acc = Some (foldl g acc l).
Proof.
  revert acc. induction l as [|b l IH]; intros acc Hf; [reflexivity|].
  simpl. rewrite Hf by constructor. simpl. apply IH.
  intros a b' Hb'. apply Hf. now constructor.
Qed.

Lemma mapM_Some_fmap {A B : Type} (f : A → option B) (g : A → B) (l : list A) :
  (∀ a, a ∈ l → f a = Some (g a)) → mapM f l = Some (g <$> l).
Proof.
  intros Hf. apply mapM_Some. induction l as [|a l IH]; [constructor|].
  simpl. constructor.
  - apply Hf. constructor.
  - apply IH. intros a' Ha'. apply Hf. now constructor.
Qed.

Section Step.
Context {num : Type} `{!Number num}.

Lemma reduceM_forces (force : vec num → vec num → num → vec num)
    (optimumDistance : num) (positions : list (vec num)) (vertex : nat)
    (pos : vec num) (others : list nat) (acc : vec num) :
  positions !! vertex = Some pos →
  (∀ n, n ∈ others → n < length positions) →
  reduceM (fun acc other =>
             pos1 ← positions !! vertex;
             pos2 ← positions !! other;
             Some (V.add acc (force pos1 pos2 optimumDistance)))
          others acc
    = Some (foldl V.add acc
              ((fun n => force pos (positions !!! n) optimumDistance) <$> others)).
Proof.
  intros Hpos Hlt. rewrite foldl_fmap. apply reduceM_Some_foldl.
  intros a n Hn. rewrite Hpos. simpl.
  rewrite (list_lookup_lookup_total_lt positions n) by auto. reflexivity.
Qed.

Lemma layoutVertex_relaxed adjacencyList optimumDistance positions vertex pos :
  wellFormed adjacencyList →
  length positions = length adjacencyList →
  positions !! vertex = Some pos →
  layoutVertex adjacencyList optimumDistance positions vertex
    = Some (relaxed adjacencyList optimumDistance positions vertex pos).
Proof.
  intros Hwf Hlen Hpos.
  assert (Hv : vertex < length adjacencyList)
    by (rewrite <- Hlen; eapply lookup_lt_Some; eassumption).
  unfold layoutVertex, relaxed, vectorSum. cbv zeta.
  rewrite (reduceM_forces calculateSpringForce _ _ _ pos).
  2: assumption.
  2:{ intros n Hn. rewrite Hlen. eapply getAdjacentVertices_lt; eassumption. }
  simpl. rewrite getVertices_seq, filter_seq_ne by assumption.
  rewrite (reduceM_forces calculateRepulsion _ _ _ pos).
  2: assumption.
  2:{ intros w Hw. apply elem_of_otherVertices in Hw as [Hw _]; [lia|assumption]. }
  simpl. rewrite Hpos. reflexivity.
Qed.

Lemma reduceM_forces_inv (force : vec num → vec num → num → vec num)
    (optimumDistance : num) (positions : list (vec num)) (vertex : nat)
    (pos : vec num) (others : list nat) (acc sum : vec num) :
  positions !! vertex = Some pos →
  reduceM (fun acc other =>
             pos1 ← positions !! vertex;
             pos2 ← positions !! other;
             Some (V.add acc (force pos1 pos2 optimumDistance)))
          others acc = Some sum →
  sum = foldl V.add acc
          ((fun n => force pos (positions !!! n) optimumDistance) <$> others).
Proof.
  intros Hpos. rewrite Hpos. simpl. clear Hpos.
  revert acc. induction others as [|n others IH]; intros acc.
  - simpl. now intros [= <-].
  - simpl. destruct (positions !! n) as [pos2|] eqn:Hn; simpl; [|discriminate].
    rewrite (list_lookup_total_correct _ _ _ Hn). apply IH.
Qed.

(** Whenever the callback returns, it returns the relaxed position: every
    position it looked up was there. *)
Lemma layoutVertex_Some adjacencyList optimumDistance positions vertex new :
  vertex < length adjacencyList →
  layoutVertex adjacencyList optimumDistance positions vertex = Some new →
  ∃ pos, positions !! vertex = Some pos
         ∧ new = relaxed adjacencyList optimumDistance positions vertex pos.
Proof.
  intros Hv. unfold layoutVertex. cbv zeta.
  rewrite getVertices_seq, filter_seq_ne by assumption. intros Hlayout.
  assert (Hpos : is_Some (positions !! vertex)).
  { destruct (positions !! vertex); [eauto|]. exfalso. revert Hlayout. simpl.
    destruct (reduceM _ (otherVertices _ _) _); simpl;
      destruct (reduceM _ _ _); simpl; discriminate. }
  destruct Hpos as [pos Hpos]. exists pos. split; [assumption|].
  destruct (reduceM _ (getAdjacentVertices adjacencyList vertex) _)
    as [localAttraction|] eqn:Hlocal; simpl in Hlayout; [|discriminate].
  destruct (reduceM _ (otherVertices (length adjacencyList) vertex) _)
    as [globalRepulsion|] eqn:Hglobal; simpl in Hlayout; [|discriminate].
  apply (reduceM_forces_inv calculateSpringForce _ _ _ pos) in Hlocal;
    [|assumption].
  apply (reduceM_forces_inv calculateRepulsion _ _ _ pos) in Hglobal;
    [|assumption].
  rewrite Hpos in Hlayout. injection Hlayout as <-.
  unfold relaxed, vectorSum. now rewrite Hlocal, Hglobal.
Qed.

Lemma makeLayout_relaxed adjacencyList optimumDistance positions :
  wellFormed adjacencyList →
  length positions = length adjacencyList →
  makeLayout adjacencyList optimumDistance positions
    = Some ((fun v => relaxed adjacencyList optimumDistance positions v
                        (positions !!! v))
              <$> seq 0 (length adjacencyList)).
Proof.
  intros Hwf Hlen. unfold makeLayout. rewrite getVertices_seq.
  apply mapM_Some_fmap. intros v Hv. apply elem_of_seq in Hv.
  apply layoutVertex_relaxed; [assumption..|].
  apply list_lookup_lookup_total_lt. lia.
Qed.

Lemma makeLayout_length adjacencyList optimumDistance positions positions' :
  makeLayout adjacencyList optimumDistance positions = Some positions' →
  length positions' = length adjacencyList.
Proof.
  unfold makeLayout. intros Hm. apply length_mapM in Hm.
  now rewrite <- Hm, length_getVertices.
Qed.

Context `{!NumberLaws num}.

Lemma V_add_comm (u v : vec num) : V.add u v = V.add v u.
Proof.
  destruct u as [x1 y1], v as [x2 y2]. simpl.
  now rewrite (num_add_comm x1 x2), (num_add_comm y1 y2).
Qed.

(** C1: whenever one layout step on an adjacency list, an optimum distance
    and a prior snapshot returns, it returns N positions, and for every vertex v
    newPos[v] = pos[v] + 0.4 * (localAttraction + globalRepulsion), where
    localAttraction sums the spring forces toward the neighbours of v and
    globalRepulsion sums the repulsion forces from every vertex other than v
    ([otherVertices N v] holds each w < N with w <> v once, and not v).  The
    step returns whenever every target is a vertex and the snapshot has N
    positions. *)
Theorem makeLayout_step (adjacencyList : adjacency) (optimumDistance : num)
    (positions : list (vec num)) :
  (∀ newPositions,
     makeLayout adjacencyList optimumDistance positions = Some newPositions →
     length newPositions = length adjacencyList
     ∧ ∀ v, v < length adjacencyList →
         ∃ pos,
           positions !! v = Some pos
           ∧ newPositions !! v
             = Some (V.add pos
                       (V.scalarMult lit_0_4
                          (V.add
                             (vectorSum
                                ((fun n => calculateSpringForce pos (positions !!! n)
                                             optimumDistance)
                                   <$> getAdjacentVertices adjacencyList v))
                             (vectorSum
                                ((fun w => calculateRepulsion pos (positions !!! w)
                                             optimumDistance)
                                   <$> otherVertices (length adjacencyList) v))))))
  ∧ (wellFormed adjacencyList →
     length positions = length adjacencyList →
     is_Some (makeLayout adjacencyList optimumDistance positions))
  ∧ (∀ v, v < length adjacencyList →
       NoDup (otherVertices (length adjacencyList) v)
       ∧ ∀ w, w ∈ otherVertices (length adjacencyList) v
              ↔ w < length adjacencyList ∧ w ≠ v).
Proof.
  split; [|split].
  - intros newPositions Hstep.
    split; [eapply makeLayout_length; eassumption|].
    intros v Hv. unfold makeLayout in Hstep. apply mapM_Some in Hstep.
    rewrite getVertices_seq in Hstep.
    destruct (Forall2_lookup_l _ _ _ v v Hstep) as (new & Hnew & Hlayout);
      [now apply lookup_seq_lt|].
    apply layoutVertex_Some in Hlayout as (pos & Hpos & ->); [|assumption].
    exists pos. split; [assumption|]. rewrite Hnew.
    unfold relaxed. f_equal. apply V_add_comm.
  - intros Hwf Hlen. rewrite makeLayout_relaxed by assumption. eauto.
  - intros v Hv. split.
    + rewrite <- filter_seq_ne by assumption. apply NoDup_filter, NoDup_seq.
    + intros w. now apply elem_of_otherVertices.
Qed.

End Step.

(** ** The layout run *)

Section Run.
Context {num : Type} `{!Number num}.
Local Open Scope num_scope.

Lemma randomPositions_spec random vertexDistance vertices drawn :
  randomPositions random vertexDistance vertices drawn
    = (initialPosition random vertexDistance drawn <$> seq 0 (length vertices),
       (drawn + 2 * length vertices)%nat).
Proof.
  revert drawn. induction vertices as [|v vertices IH]; intros drawn.
  - simpl. now rewrite Nat.add_0_r.
  - simpl. rewrite IH. f_equal.
    + unfold initialPosition at 2. simpl. rewrite !Nat.add_0_r. f_equal.
      rewrite <- fmap_S_seq, <- list_fmap_compose. apply list_fmap_ext.
      intros i j _. unfold initialPosition. simpl.
      now replace (drawn + S (j + S (j + 0)))%nat
        with (S (S (drawn + (j + (j + 0)))))%nat by lia.
    + lia.
Qed.

Lemma length_steps adjacencyList optimumDistance n positions :
  wellFormed adjacencyList →
  length positions = length adjacencyList →
  length (steps adjacencyList optimumDistance n positions) = n.
Proof.
  intros Hwf. revert positions. induction n as [|n IH]; intros positions Hlen.
  - reflexivity.
  - simpl.
    rewrite makeLayout_relaxed by assumption.
    simpl. rewrite IH; [reflexivity|]. now rewrite length_fmap, length_seq.
Qed.

(** The first [next()]: the initial snapshot is allocated and yielded. *)
Lemma next_start random w adjacencyList vertexDistance iterations :
  next random w (mkGenerator adjacencyList vertexDistance iterations GenStart)
    = (Yielded (length (heap w)),
       mkWorld (heap w ++ [initialPosition random vertexDistance (draws w)
                             <$> seq 0 (length adjacencyList)])
               (draws w + 2 * length adjacencyList)%nat,
       mkGenerator adjacencyList vertexDistance iterations
         (GenLoop 0 (length (heap w)))).
Proof.
  unfold next. simpl. now rewrite randomPositions_spec, length_getVertices.
Qed.

Lemma next_loop_step random w adjacencyList vertexDistance iterations i ref
    positions positions' :
  (i < iterations)%Z →
  heap w !! ref = Some positions →
  makeLayout adjacencyList vertexDistance positions = Some positions' →
  next random w (mkGenerator adjacencyList vertexDistance iterations (GenLoop i ref))
    = (Yielded (length (heap w)),
       mkWorld (heap w ++ [positions']) (draws w),
       mkGenerator adjacencyList vertexDistance iterations
         (GenLoop (i + 1) (length (heap w)))).
Proof.
  intros Hi Href Hstep. unfold next. simpl.
  apply Z.ltb_lt in Hi. rewrite Hi, Href. simpl. now rewrite Hstep.
Qed.

Lemma next_loop_exit random w adjacencyList vertexDistance iterations i ref :
  (iterations ≤ i)%Z →
  next random w (mkGenerator adjacencyList vertexDistance iterations (GenLoop i ref))
    = (Finished, w, mkGenerator adjacencyList vertexDistance iterations GenDone).
Proof.
  intros Hi. unfold next. simpl.
  now rewrite (proj2 (Z.ltb_ge i iterations)) by assumption.
Qed.

Lemma pull_done random m w adjacencyList vertexDistance iterations :
  pull random m w (mkGenerator adjacencyList vertexDistance iterations GenDone)
    = (replicate m Finished, w,
       mkGenerator adjacencyList vertexDistance iterations GenDone).
Proof. induction m as [|m IH]; [reflexivity|]. simpl. now rewrite IH. Qed.

(** Once the loop test fails, every further [next()] reports completion and
    nothing is allocated. *)
Lemma pull_exit random m w adjacencyList vertexDistance iterations i ref :
  (iterations ≤ i)%Z →
  (pull random m w
     (mkGenerator adjacencyList vertexDistance iterations (GenLoop i ref))).1
    = (replicate m Finished, w).
Proof.
  intros Hi. destruct m as [|m]; [reflexivity|].
  cbn [pull]. rewrite next_loop_exit by assumption. now rewrite pull_done.
Qed.



Lemma next_heap_app random w g :
  ∃ allocated, heap (next random w g).1.2 = heap w ++ allocated.
Proof.
  destruct g as [adj d it [|i ref|]]; unfold next; simpl.
  - destruct (randomPositions random d (getVertices adj) (draws w)) as [ps drawn].
    simpl. eauto.
  - destruct (i <? it)%Z; [|exists []; simpl; now rewrite app_nil_r].
    destruct (heap w !! ref ≫= makeLayout adj d) as [ps|]; simpl; [eauto|].
    exists []. now rewrite app_nil_r.
  - exists []. now rewrite app_nil_r.
Qed.

Lemma pull_heap_app random n w g :
  ∃ allocated, heap (pull random n w g).1.2 = heap w ++ allocated.
Proof.
  revert w g. induction n as [|n IH]; intros w g.
  - exists []. simpl. now rewrite app_nil_r.
  - simpl. destruct (next_heap_app random w g) as [l1 H1].
    destruct (next random w g) as [[r w1] g1]. simpl in H1.
    destruct (IH w1 g1) as [l2 H2].
    destruct (pull random n w1 g1) as [[rs w2] g2]. simpl in *.
    exists (l1 ++ l2). now rewrite H2, H1, app_assoc.
Qed.

(** After its first [next()] the generator makes no draw. *)
Lemma next_started_random random1 random2 w g :
  state g ≠ GenStart → next random1 w g = next random2 w g.
Proof. destruct g as [adj d it [|i ref|]]; [intros []|..]; reflexivity. Qed.

Lemma next_state_started random w g :
  state (next random w g).2 ≠ GenStart.
Proof.
  destruct g as [adj d it [|i ref|]]; unfold next; simpl.
  - now destruct (randomPositions random d (getVertices adj) (draws w)).
  - destruct (i <? it)%Z; [|discriminate].
    now destruct (heap w !! ref ≫= makeLayout adj d).
  - discriminate.
Qed.

Lemma pull_started_random random1 random2 n w g :
  state g ≠ GenStart → pull random1 n w g = pull random2 n w g.
Proof.
  revert w g. induction n as [|n IH]; intros w g Hg; [reflexivity|].
  simpl. rewrite (next_started_random random1 random2) by assumption.
  pose proof (next_state_started random2 w g) as Hg'.
  destruct (next random2 w g) as [[r w1] g1]. simpl in Hg'.
  now rewrite IH.
Qed.


(** C4 (amended): [runLayout] validates nothing.  Whatever the optimum
    distance and the iteration count, the first [next()] yields the initial
    snapshot of N positions; with an iteration count of zero or less that
    snapshot is the only one and every later [next()] reports completion. *)
Theorem runLayout_validates_nothing (adjacencyList : adjacency)
    (vertexDistance : num) (iterations : Z) (random : nat -> num) (w : World num) :
  let g := runLayout adjacencyList (Some vertexDistance) (Some iterations) in
  (∃ initial,
     (next random w g).1
       = (Yielded (length (heap w)),
          mkWorld (heap w ++ [initial]) (draws w + 2 * length adjacencyList)%nat)
     ∧ length initial = length adjacencyList)
  ∧ ((iterations ≤ 0)%Z →
     ∀ m, (pull random (S m) w g).1.1
            = Yielded (length (heap w)) :: replicate m Finished).
Proof.
  intros g. subst g. unfold runLayout. simpl default. split.
  - eexists. rewrite next_start. simpl. split; [reflexivity|].
    now rewrite length_fmap, length_seq.
  - intros Hit m. cbn [pull]. rewrite next_start.
    pose proof (pull_exit random m
        (mkWorld (heap w ++ [initialPosition random vertexDistance (draws w)
                               <$> seq 0 (length adjacencyList)])
                 (draws w + 2 * length adjacencyList)%nat)
        adjacencyList vertexDistance iterations 0%Z (length (heap w)) Hit) as Hexit.
    destruct (pull random m _ _) as [[rs' w''] g''].
    simpl in Hexit. injection Hexit as -> ->. reflexivity.
Qed.

(** C5: no [next()] changes a snapshot allocated before it, however many
    follow; and a step reads the prior snapshot only: the array it yields is
    fresh, and each of its positions is the value of [layoutVertex] on the
    prior snapshot, which is still in place afterwards. *)
Theorem snapshots_are_frozen :
  (∀ (random : nat -> num) n w g ref snapshot,
     heap w !! ref = Some snapshot →
     heap (pull random n w g).1.2 !! ref = Some snapshot)
  ∧ (∀ (random : nat -> num) w adjacencyList vertexDistance iterations i ref value,
       (next random w
          (mkGenerator adjacencyList vertexDistance iterations (GenLoop i ref))).1.1
         = Yielded value →
       ∃ prior new,
         let w' := (next random w
                      (mkGenerator adjacencyList vertexDistance iterations
                         (GenLoop i ref))).1.2 in
         heap w !! ref = Some prior
         ∧ heap w' !! ref = Some prior
         ∧ heap w !! value = None
         ∧ heap w' !! value = Some new
         ∧ length new = length adjacencyList
         ∧ ∀ v pos, new !! v = Some pos →
             layoutVertex adjacencyList vertexDistance prior v = Some pos).
Proof.
  split.
  - intros random n w g ref snapshot Href.
    destruct (pull_heap_app random n w g) as [allocated ->].
    now apply lookup_app_l_Some.
  - intros random w adj d it i ref value. unfold next. simpl.
    destruct (i <? it)%Z; [|discriminate].
    destruct (heap w !! ref) as [prior|] eqn:Href; simpl; [|discriminate].
    destruct (makeLayout adj d prior) as [new|] eqn:Hnew; simpl; [|discriminate].
    intros [= <-]. exists prior, new.
    split; [reflexivity|]. split; [now apply lookup_app_l_Some|].
    split; [now apply lookup_ge_None|]. split; [now rewrite list_lookup_middle|].
    split; [eapply makeLayout_length; eassumption|].
    intros v pos Hv. unfold makeLayout in Hnew. apply mapM_Some in Hnew.
    rewrite getVertices_seq in Hnew.
    destruct (Forall2_lookup_r _ _ _ _ _ Hnew Hv) as (v' & Hv' & Hpos).
    apply lookup_seq in Hv' as [-> _]. exact Hpos.
Qed.

(** C9: two runs on the same graph and parameters whose random sources agree
    on the 2N values drawn for the initial placement give the same results,
    the same snapshots and the same state, [next()] by [next()]. *)
Theorem runLayout_deterministic (adjacencyList : adjacency)
    (vertexDistance : option num) (iterations : option Z)
    (random1 random2 : nat -> num) (w : World num) (n : nat) :
  (∀ k, k < 2 * length adjacencyList →
        random1 (draws w + k)%nat = random2 (draws w + k)%nat) →
  pull random1 n w (runLayout adjacencyList vertexDistance iterations)
    = pull random2 n w (runLayout adjacencyList vertexDistance iterations).
Proof.
  intros Hsame. destruct n as [|n]; [reflexivity|].
  unfold runLayout. cbn [pull]. rewrite !next_start.
  assert (Hinit :
    initialPosition random1 (default lit_100 vertexDistance) (draws w)
      <$> seq 0 (length adjacencyList)
    = initialPosition random2 (default lit_100 vertexDistance) (draws w)
      <$> seq 0 (length adjacencyList)).
  { apply list_fmap_ext. intros i v Hv. apply lookup_seq in Hv as [Hi Hv].
    simpl in Hi. subst v. unfold initialPosition.
    rewrite (Hsame (2 * i)%nat) by lia.
    replace (S (draws w + 2 * i)) with (draws w + (2 * i + 1))%nat by lia.
    now rewrite (Hsame (2 * i + 1)%nat) by lia. }
  rewrite Hinit.
  now rewrite (pull_started_random random1 random2) by discriminate.
Qed.

End Run.

(** ** The arithmetic of the forces, over the reals *)

Module Real.

Local Open Scope R_scope.

(** C4, as stated, fails: with an optimum distance of -1, and again with an
    iteration count of -1, the first [next()] yields a snapshot; nothing is
    thrown. *)
Lemma runLayout_invalid_configuration_yields :
  (next (fun _ => 0) (mkWorld [] 0)
        (runLayout [[]] (Some (-1)) None)).1.1 = Yielded 0%nat
  ∧ (next (fun _ => 0) (mkWorld [] 0)
          (runLayout [[]] None (Some (-1)%Z))).1.1 = Yielded 0%nat.
Proof. unfold runLayout. rewrite !next_start. split; reflexivity. Qed.





End Real.

(** ** The arithmetic of [norm], on binary64 *)

Module Binary64.

Local Open Scope float_scope.

(** The tests that [vector-math.js] attaches to [add], [sub], [scalarMult],
    [length] and [norm], with their expected values, evaluated on binary64. *)
#[warnings="-inexact-float"] Lemma vector_math_tests (log : float -> float) :
  let N := float_Number log in
  V.add (V.mk 2 3) (V.mk 10 (-7)) = V.mk 12%float (-4)%float
  ∧ V.add (V.mk (-5) 6) (V.mk (-7) (-4)) = V.mk (-12)%float 2%float
  ∧ V.sub (V.mk 2 3) (V.mk 10 (-7)) = V.mk (-8)%float 10%float
  ∧ V.sub (V.mk (-5) 6) (V.mk (-7) (-4)) = V.mk 2%float 10%float
  ∧ V.scalarMult 6 (V.mk 2 3) = V.mk 12%float 18%float
  ∧ V.scalarMult (-0.5) (V.mk (-1) 4) = V.mk 0.5%float (-2)%float
  ∧ V.length (V.mk 4 3) = 5%float
  ∧ V.length (V.mk (-2) 0) = 2%float
  ∧ V.norm (V.mk 3 0) = V.mk 1%float 0%float
  ∧ V.norm (V.mk (-1) (-1))
      = V.mk (-0.7071067811865475)%float (-0.7071067811865475)%float.
Proof. intros N. repeat split; vm_compute; reflexivity. Qed.

Local Open Scope Z_scope.

Lemma shr_1_nonneg mrs : 0 <= shr_m mrs → 0 <= shr_m (shr_1 mrs).
Proof. destruct mrs as [[|[p|p|]|p] r s]; simpl; lia. Qed.

Lemma iter_pos_shr_1_nonneg p mrs :
  0 <= shr_m mrs → 0 <= shr_m (SpecFloat.iter_pos shr_1 p mrs).
Proof.
  revert mrs. induction p as [p IH|p IH|]; simpl; intros mrs Hm;
    auto using shr_1_nonneg.
Qed.

Lemma shr_fexp_nonneg prec emax m e l :
  0 <= m → 0 <= shr_m (shr_fexp prec emax m e l).1.
Proof.
  intros Hm. unfold shr_fexp, shr.
  assert (Hrec : 0 <= shr_m (shr_record_of_loc m l)) by (destruct l as [|[]]; exact Hm).
  destruct (_ - e); simpl; auto using iter_pos_shr_1_nonneg.
Qed.

Lemma round_nearest_even_nonneg m l : 0 <= m → 0 <= round_nearest_even m l.
Proof.
  intros Hm. destruct l as [|[]]; simpl; try destruct (Z.even m); lia.
Qed.

(** Rounding a non-negative mantissa gives a zero, a finite number or an
    infinity. *)
Lemma binary_round_aux_not_nan prec emax sx mx ex lx :
  0 <= mx → binary_round_aux prec emax sx mx ex lx ≠ S754_nan.
Proof.
  intros Hm. unfold binary_round_aux.
  pose proof (shr_fexp_nonneg prec emax mx ex lx Hm) as H1.
  destruct (shr_fexp prec emax mx ex lx) as [mrs' e']. simpl in H1.
  pose proof (shr_fexp_nonneg prec emax _ e' loc_Exact
                (round_nearest_even_nonneg _ (loc_of_shr_record mrs') H1)) as H2.
  destruct (shr_fexp prec emax _ e' loc_Exact) as [mrs'' e'']. simpl in H2.
  destruct (shr_m mrs'') as [|m|m]; [discriminate| |lia].
  destruct (e'' <=? emax - prec); discriminate.
Qed.

Lemma SFdiv_finite_not_nan prec emax sx mx ex sy my ey :
  SFdiv prec emax (S754_finite sx mx ex) (S754_finite sy my ey) ≠ S754_nan.
Proof.
  unfold SFdiv, SFdiv_core_binary.
  set (s := _ - _ - Z.min _ _).
  set (m' := match s with
             | Z0 => Z.pos mx
             | Z.pos _ => Z.shiftl (Z.pos mx) s
             | Z.neg _ => 0
             end).
  assert (Hm' : 0 <= m').
  { subst m'. destruct s; [lia| |lia]. apply Z.shiftl_nonneg. lia. }
  pose proof (Z_div_mod m' (Z.pos my) ltac:(lia)) as Hdiv.
  destruct (Z.div_eucl m' (Z.pos my)) as [q r].
  apply binary_round_aux_not_nan. nia.
Qed.

Lemma SFeqb_refl s : s ≠ S754_nan → SFeqb s s = true.
Proof.
  intros Hs. unfold SFeqb. destruct s as [[]|[]| |[] m e]; try reflexivity.
  - congruence.
  - simpl. now rewrite Z.compare_refl, Pos.compare_cont_refl.
  - simpl. now rewrite Z.compare_refl, Pos.compare_cont_refl.
Qed.

(** [1 / l] is a number whenever [l] is a number other than zero. *)
Lemma reciprocal_not_nan (l : float) :
  is_nan l = false → (l =? 0)%float = false → is_nan (1 / l)%float = false.
Proof.
  unfold is_nan. rewrite !FloatAxioms.eqb_spec, FloatAxioms.div_spec.
  change (Prim2SF 1) with (S754_finite false 4503599627370496 (-52)).
  change (Prim2SF 0) with (S754_zero false).
  intros Hnan Hzero. apply negb_false_iff, SFeqb_refl.
  destruct (Prim2SF l) as [sl|sl| |sl ml el]; try discriminate.
  apply SFdiv_finite_not_nan.
Qed.

(** C10: [norm] raises nothing on the zero vector: the division [1 / 0] is
    carried out, it gives +Infinity, and both components of the result are
    NaN.  For a vector whose length is a number other than zero the quotient
    [1 / length(v)] is a number and [norm] returns the vector scaled by it. *)
Theorem norm_zero_vector_is_NaN (log : float -> float) :
  let N := float_Number log in
  V.length (V.mk 0%float 0%float) = 0%float
  ∧ (1 / V.length (V.mk 0%float 0%float))%float = infinity
  ∧ V.norm (V.mk 0%float 0%float) = V.mk nan nan
  ∧ ∀ v : vec float,
      is_nan (V.length v) = false →
      (V.length v =? 0)%float = false →
      is_nan (1 / V.length v)%float = false
      ∧ V.norm v = V.scalarMult (1 / V.length v)%float v.
Proof.
  intros N. repeat split; try reflexivity.
  - now apply reciprocal_not_nan.
  - now destruct v.
Qed.

End Binary64.

(** ** Instances of the theorems *)

Module Examples.

Local Open Scope R_scope.

Lemma wellFormed_twoVertices : wellFormed twoVertices.
Proof. repeat constructor. Defined.

Lemma makeLayout_step_witness :
  wellFormed twoVertices
  ∧ length apart = length twoVertices
  ∧ ∃ newPositions,
      makeLayout twoVertices 5 apart = Some newPositions
      ∧ length newPositions = 2%nat
      ∧ newPositions !! 0%nat
          = Some (V.add (V.mk 0 0)
                    (V.scalarMult (4 / 10)
                       (V.add
                          (vectorSum [calculateSpringForce (V.mk 0 0) (V.mk 3 4) 5])
                          (vectorSum [calculateRepulsion (V.mk 0 0) (V.mk 3 4) 5])))).
Proof.
  split; [exact wellFormed_twoVertices|]. split; [reflexivity|].
  destruct (makeLayout_step twoVertices 5 apart) as (Hformula & Hreturns & _).
  destruct (Hreturns wellFormed_twoVertices eq_refl) as [newPositions Hstep].
  destruct (Hformula newPositions Hstep) as [Hlen Hpos].
  exists newPositions. split; [exact Hstep|]. split; [exact Hlen|].
  destruct (Hpos 0%nat ltac:(simpl; lia)) as (pos & [= <-] & Hnew).
  exact Hnew.
Defined.



Lemma runLayout_deterministic_witness :
  (∀ k, (k < 2 * length twoVertices)%nat →
        reciprocalsThenZero (0 + k) = reciprocals (0 + k))
  ∧ pull reciprocalsThenZero 5 (mkWorld [] 0)
         (runLayout twoVertices (Some 100) None)
    = pull reciprocals 5 (mkWorld [] 0) (runLayout twoVertices (Some 100) None).
Proof.
  assert (Hsame : ∀ k, (k < 2 * length twoVertices)%nat →
            reciprocalsThenZero (0 + k) = reciprocals (0 + k)).
  { intros k Hk. simpl in Hk. unfold reciprocalsThenZero.
    destruct k as [|[|[|[|k]]]]; try reflexivity. lia. }
  split; [exact Hsame|].
  exact (runLayout_deterministic twoVertices (Some 100) None reciprocalsThenZero
           reciprocals (mkWorld [] 0) 5 Hsame).
Defined.




End Examples.

(** * Part IV: further properties of the code *)

(** ** The graph model: edges and neighbours *)

Lemma elem_of_getEdges (adjacencyList : adjacency) (e : edge) :
  e ∈ getEdges adjacencyList ↔ lists adjacencyList (from e) (to e).
Proof.
  unfold getEdges, lists. rewrite list_elem_of_join. split.
  - intros (l & He & Hl). apply elem_of_lookup_imap in Hl as (i & row & -> & Hrow).
    apply list_elem_of_fmap in He as (t & -> & Ht). simpl. eauto.
  - intros (row & Hrow & Ht). exists ((fun to => mkEdge (from e) to) <$> row). split.
    + apply list_elem_of_fmap. exists (to e). split; [now destruct e|assumption].
    + apply elem_of_lookup_imap. eauto.
Qed.

Lemma getEdges_snoc (adjacencyList : adjacency) (row : list nat) :
  getEdges (adjacencyList ++ [row])
    = getEdges adjacencyList ++ (mkEdge (length adjacencyList) <$> row).
Proof.
  unfold getEdges. rewrite imap_app, join_app. simpl.
  now rewrite Nat.add_0_r, app_nil_r.
Qed.

Lemma length_getEdges (adjacencyList : adjacency) :
  length (getEdges adjacencyList) = sum_list (length <$> adjacencyList).
Proof.
  induction adjacencyList as [|row adj IH] using rev_ind; [reflexivity|].
  rewrite getEdges_snoc, length_app, length_fmap, IH, fmap_app, sum_list_with_app.
  simpl. lia.
Qed.

(** X1: [getEdges] returns one pair per listed target and nothing else:
    [(u, v)] is an edge exactly when row [u] exists and lists [v], the number
    of edges is the total length of the rows (a target listed twice gives two
    edges), and a row appended to the list appends its edges, in the row's
    order, after all earlier ones. *)
Theorem getEdges_lists_every_target (adjacencyList : adjacency) :
  (∀ e, e ∈ getEdges adjacencyList
        ↔ ∃ row, adjacencyList !! from e = Some row ∧ to e ∈ row)
  ∧ length (getEdges adjacencyList) = sum_list (length <$> adjacencyList)
  ∧ ∀ row, getEdges (adjacencyList ++ [row])
           = getEdges adjacencyList ++ (mkEdge (length adjacencyList) <$> row).
Proof.
  split; [exact (elem_of_getEdges adjacencyList)|].
  split; [exact (length_getEdges adjacencyList)|].
  exact (getEdges_snoc adjacencyList).
Qed.

Lemma elem_of_getAdjacentVertices (adjacencyList : adjacency) (u v : nat) :
  v ∈ getAdjacentVertices adjacencyList u
  ↔ lists adjacencyList u v ∨ lists adjacencyList v u.
Proof.
  rewrite getAdjacentVertices_inboundFrom, elem_of_app, elem_of_inboundFrom.
  unfold lists. split.
  - intros [Hout | (i & row & -> & Hrow & Hu)].
    + left. destruct (adjacencyList !! u) as [row|]; simpl in Hout; [eauto|].
      inversion Hout.
    + right. eauto.
  - intros [(row & Hrow & Hv) | (row & Hrow & Hu)].
    + left. now rewrite Hrow.
    + right. exists v, row. auto.
Qed.

(** X2: the layout treats the directed graph as an undirected one: [v] is
    among the neighbours of [u] exactly when [u] is among those of [v], and
    exactly when [getEdges] has the edge [(u, v)] or the edge [(v, u)]. *)
Theorem getAdjacentVertices_symmetric (adjacencyList : adjacency) (u v : nat) :
  (v ∈ getAdjacentVertices adjacencyList u
   ↔ u ∈ getAdjacentVertices adjacencyList v)
  ∧ (v ∈ getAdjacentVertices adjacencyList u
     ↔ mkEdge u v ∈ getEdges adjacencyList ∨ mkEdge v u ∈ getEdges adjacencyList).
Proof.
  rewrite !elem_of_getAdjacentVertices, !elem_of_getEdges. simpl. tauto.
Qed.

Lemma wellFormed_lists (adjacencyList : adjacency) :
  wellFormed adjacencyList
  ↔ ∀ u v, lists adjacencyList u v → v < length adjacencyList.
Proof.
  unfold wellFormed, lists. rewrite Forall_lookup. split.
  - intros Hwf u v (row & Hrow & Hv). specialize (Hwf u row Hrow).
    rewrite Forall_forall in Hwf. auto.
  - intros Hl u row Hrow. apply Forall_forall. intros v Hv. eauto.
Qed.

Lemma not_wellFormed_lists (adjacencyList : adjacency) :
  ¬ wellFormed adjacencyList →
  ∃ u v, lists adjacencyList u v ∧ length adjacencyList ≤ v.
Proof.
  intros Hwf. unfold wellFormed in Hwf.
  apply not_Forall_Exists in Hwf; [|apply _].
  apply Exists_exists in Hwf as (row & Hrow & Hbad).
  apply not_Forall_Exists in Hbad; [|apply _].
  apply Exists_exists in Hbad as (v & Hv & Hge).
  apply list_elem_of_lookup in Hrow as [u Hu].
  exists u, v. split; [exists row; auto|]. simpl in Hge. lia.
Qed.

(** ** A step on a malformed graph, and the generator after it *)

Lemma reduceM_None {A B : Type} (f : A → B → option A) (l : list B) (acc : A) (b : B) :
  b ∈ l → (∀ a, f a b = None) → reduceM f l acc = None.
Proof.
  intros Hb Hf. revert acc. induction l as [|b' l IH]; intros acc; [inversion Hb|].
  simpl. apply elem_of_cons in Hb as [<-|Hb].
  - now rewrite Hf.
  - destruct (f acc b'); simpl; auto.
Qed.

Section StepErrors.
Context {num : Type} `{!Number num}.
Local Open Scope num_scope.

Lemma layoutVertex_undefined_target adjacencyList optimumDistance
    (positions : list (vec num)) u v :
  lists adjacencyList u v → length positions ≤ v →
  layoutVertex adjacencyList optimumDistance positions u = None.
Proof.
  intros Huv Hv. unfold layoutVertex. cbv zeta.
  rewrite (reduceM_None _ (getAdjacentVertices adjacencyList u) _ v); [reflexivity| |].
  - apply elem_of_getAdjacentVertices. now left.
  - intros a. rewrite (lookup_ge_None_2 positions v) by assumption.
    now destruct (positions !! u).
Qed.

Lemma makeLayout_malformed adjacencyList optimumDistance (positions : list (vec num)) :
  length positions = length adjacencyList →
  ¬ wellFormed adjacencyList →
  makeLayout adjacencyList optimumDistance positions = None.
Proof.
  intros Hlen Hwf. apply not_wellFormed_lists in Hwf as (u & v & Huv & Hv).
  unfold makeLayout. apply mapM_None. apply Exists_exists. exists u. split.
  - rewrite getVertices_seq. apply elem_of_seq.
    destruct Huv as (row & Hrow & _). apply lookup_lt_Some in Hrow. lia.
  - apply (layoutVertex_undefined_target _ _ _ u v); [assumption|lia].
Qed.

(** X3: on a snapshot of N positions, a layout step throws (the [TypeError]
    of destructuring [undefined]) exactly when the adjacency list names a
    target that is no vertex; the optimum distance and the positions
    themselves never make it throw. *)
Theorem makeLayout_throws_iff_malformed (adjacencyList : adjacency)
    (optimumDistance : num) (positions : list (vec num)) :
  length positions = length adjacencyList →
  makeLayout adjacencyList optimumDistance positions = None
  ↔ ¬ wellFormed adjacencyList.
Proof.
  intros Hlen. split.
  - intros Hnone Hwf. rewrite makeLayout_relaxed in Hnone by assumption. discriminate.
  - now apply makeLayout_malformed.
Qed.

Lemma next_loop_throw random (w : World num) adjacencyList vertexDistance
    iterations i ref positions :
  (i < iterations)%Z →
  heap w !! ref = Some positions →
  makeLayout adjacencyList vertexDistance positions = None →
  next random w (mkGenerator adjacencyList vertexDistance iterations (GenLoop i ref))
    = (Thrown, w, mkGenerator adjacencyList vertexDistance iterations GenDone).
Proof.
  intros Hi Href Hstep. unfold next. simpl.
  apply Z.ltb_lt in Hi. rewrite Hi, Href. simpl. now rewrite Hstep.
Qed.

(** X4: a run on a malformed graph with at least one iteration yields the
    initial snapshot, throws at the second [next()] (inside the first step),
    and is completed from then on; the store holds the initial snapshot
    only. *)
Theorem runLayout_malformed_throws_at_first_step (adjacencyList : adjacency)
    (vertexDistance : num) (k : Z) (random : nat -> num) (w : World num) :
  ¬ wellFormed adjacencyList →
  (1 ≤ k)%Z →
  ∀ m,
    (pull random (2 + m) w
       (runLayout adjacencyList (Some vertexDistance) (Some k))).1
      = ([Yielded (length (heap w)); Thrown] ++ replicate m Finished,
         mkWorld (heap w ++ [initialPosition random vertexDistance (draws w)
                               <$> seq 0 (length adjacencyList)])
                 (draws w + 2 * length adjacencyList)%nat).
Proof.
  intros Hwf Hk m. unfold runLayout. simpl default. cbn [pull Nat.add].
  rewrite next_start.
  rewrite (next_loop_throw _ _ _ _ _ _ _
             (initialPosition random vertexDistance (draws w)
                <$> seq 0 (length adjacencyList))).
  - now rewrite pull_done.
  - lia.
  - simpl. now rewrite list_lookup_middle.
  - apply makeLayout_malformed; [|assumption].
    now rewrite length_fmap, length_seq.
Qed.

(** A [next()] that yields nothing leaves the store alone and completes the
    generator. *)
Lemma next_closed (random : nat -> num) (w : World num) (g : Generator num) :
  (∀ value, (next random w g).1.1 ≠ Yielded value) →
  (next random w g).1.2 = w
  ∧ ∀ (random' : nat -> num) m,
      (pull random' m (next random w g).1.2 (next random w g).2).1
        = (replicate m Finished, w).
Proof.
  destruct g as [adj d it [|i ref|]]; unfold next; simpl.
  - destruct (randomPositions random d (getVertices adj) (draws w)) as [ps drawn].
    simpl. intros Hno. now destruct (Hno (length (heap w))).
  - destruct (i <? it)%Z.
    + destruct (heap w !! ref ≫= makeLayout adj d) as [ps|]; simpl.
      * intros Hno. now destruct (Hno (length (heap w))).
      * intros _. split; [reflexivity|]. intros random' m. unfold suspend. simpl.
        now rewrite pull_done.
    + simpl. intros _. split; [reflexivity|]. intros random' m. unfold suspend. simpl.
      now rewrite pull_done.
  - intros _. split; [reflexivity|]. intros random' m. now rewrite pull_done.
Qed.

(** X5: a generator that has completed or thrown stays completed: when a
    [next()] yields no snapshot (for any graph, state and store), it has
    changed nothing in the store, and every later [next()] reports
    completion, allocates nothing and draws no random value. *)
Theorem generator_closed_stays_closed (random random' : nat -> num) (w : World num)
    (g : Generator num) (m : nat) :
  (∀ value, (next random w g).1.1 ≠ Yielded value) →
  (next random w g).1.2 = w
  ∧ (pull random' m (next random w g).1.2 (next random w g).2).1
      = (replicate m Finished, w).
Proof.
  intros Hno. destruct (next_closed random w g Hno) as [Hsame Hrest]. auto.
Qed.

Lemma next_valid random (w : World num) g :
  validGenerator w g →
  validGenerator (next random w g).1.2 (next random w g).2
  ∧ adjacencyList (next random w g).2 = adjacencyList g
  ∧ ((∀ value, (next random w g).1.1 ≠ Yielded value) ∨
     (next random w g).1.1 = Yielded (length (heap w))
     ∧ ∃ snapshot, heap (next random w g).1.2 = heap w ++ [snapshot]
                   ∧ length snapshot = length (adjacencyList g)).
Proof.
  destruct g as [adj d it [|i ref|]]; unfold validGenerator.
  - intros _. rewrite next_start. simpl.
    rewrite list_lookup_middle by reflexivity.
    split; [|split; [reflexivity|right; split; [reflexivity|]]];
      eexists; (split; [reflexivity|]); now rewrite length_fmap, length_seq.
  - simpl. intros (positions & Href & Hlen).
    destruct (decide (i < it)%Z) as [Hi|Hi].
    + destruct (makeLayout adj d positions) as [ps|] eqn:Hstep.
      * rewrite (next_loop_step _ _ _ _ _ _ _ positions ps) by assumption.
        apply makeLayout_length in Hstep. simpl.
        rewrite list_lookup_middle by reflexivity.
        split; [eauto|]. split; [reflexivity|]. right. eauto.
      * rewrite (next_loop_throw _ _ _ _ _ _ _ positions) by assumption. simpl.
        split; [exact I|]. split; [reflexivity|]. left. discriminate.
    + rewrite next_loop_exit by lia. simpl.
      split; [exact I|]. split; [reflexivity|]. left. discriminate.
  - intros _. simpl. split; [exact I|]. split; [reflexivity|]. left. discriminate.
Qed.

Lemma pull_yields random n :
  ∀ (w : World num) g, validGenerator w g →
  ∀ i value,
    (pull random n w g).1.1 !! i = Some (Yielded value) →
    value = (length (heap w) + i)%nat
    ∧ ∃ snapshot, heap (pull random n w g).1.2 !! value = Some snapshot
                  ∧ length snapshot = length (adjacencyList g).
Proof.
  induction n as [|n IH]; intros w g Hvalid i value; [discriminate|].
  cbn [pull].
  destruct (next_valid random w g Hvalid) as (Hvalid' & Hadj & Hyield).
  pose proof (next_closed random w g) as Hclosed.
  pose proof (pull_heap_app random n (next random w g).1.2 (next random w g).2)
    as [allocated Halloc].
  specialize (IH (next random w g).1.2 (next random w g).2 Hvalid').
  destruct (next random w g) as [[r w1] g1]. simpl in *.
  destruct Hyield as [Hno | (-> & snapshot & Hheap & Hlen)].
  - destruct (Hclosed Hno) as [-> Hrest]. specialize (Hrest random n).
    destruct (pull random n w g1) as [[rs w2] g2]. simpl in *.
    injection Hrest as -> ->. destruct i as [|i]; simpl.
    + intros [= ->]. now destruct (Hno value).
    + intros Hi. apply lookup_replicate in Hi as [[=] _].
  - destruct (pull random n w1 g1) as [[rs w2] g2]. simpl in *.
    destruct i as [|i]; simpl.
    + intros [= <-]. split; [lia|]. exists snapshot. split; [|assumption].
      rewrite Halloc, Hheap, <- app_assoc. simpl. now rewrite list_lookup_middle.
    + intros Hi. destruct (IH i value Hi) as (-> & snap & Hsnap & Hlen').
      rewrite Hadj in Hlen'. split; [|eauto].
      rewrite Hheap, length_app. simpl. lia.
Qed.

(** X6: whatever the graph, the parameters and the number of [next()] calls,
    every value a run yields is a fresh reference (the [i]-th result refers
    to the [i]-th array allocated since the run began, so no two yields share
    an array) and the array it refers to holds one position per vertex. *)
Theorem runLayout_yields_fresh_full_snapshots (adjacencyList : adjacency)
    (vertexDistance : option num) (iterations : option Z) (random : nat -> num)
    (w : World num) (n i value : nat) :
  (pull random n w (runLayout adjacencyList vertexDistance iterations)).1.1 !! i
    = Some (Yielded value) →
  value = (length (heap w) + i)%nat
  ∧ ∃ snapshot,
      heap (pull random n w (runLayout adjacencyList vertexDistance iterations)).1.2
        !! value = Some snapshot
      ∧ length snapshot = length adjacencyList.
Proof.
  intros Hi.
  exact (pull_yields random n w (runLayout adjacencyList vertexDistance iterations)
           I i value Hi).
Qed.

End StepErrors.
(** ** Drawing: the frames of [main.js] *)

Lemma steps_lengths {num : Type} `{!Number num} adjacencyList (optimumDistance : num)
    n positions :
  Forall (fun snapshot => length snapshot = length adjacencyList)
         (steps adjacencyList optimumDistance n positions).
Proof.
  revert positions. induction n as [|n IH]; intros positions; [constructor|].
  simpl. destruct (makeLayout adjacencyList optimumDistance positions)
    as [positions'|] eqn:Hstep; [|constructor].
  constructor; [|apply IH]. exact (makeLayout_length _ _ _ _ Hstep).
Qed.

Section Animation.
Context {num : Type} `{!Number num, !Trig num}.

Lemma forEachDrawEdge_defined (canvas : Canvas num) positions edges :
  Forall (fun e => from e < length positions ∧ to e < length positions) edges →
  forEachDrawEdge canvas (edgePositions positions edges)
    = (mjoin ((fun e => drawEdge canvas (positions !!! from e) (positions !!! to e))
                <$> edges),
       Returned).
Proof.
  induction 1 as [|e edges [Hfrom Hto] _ IH]; [reflexivity|].
  unfold edgePositions in *. cbn [fmap list_fmap forEachDrawEdge mjoin list_join].
  apply lookup_lt_is_Some in Hfrom as [tail Htail], Hto as [tip Htip].
  rewrite Htail, Htip, IH.
  now rewrite (list_lookup_total_correct _ _ _ Htail),
    (list_lookup_total_correct _ _ _ Htip).
Qed.

Lemma forEachDrawEdge_undefined (canvas : Canvas num) positions edges :
  ¬ Forall (fun e => from e < length positions ∧ to e < length positions) edges →
  (forEachDrawEdge canvas (edgePositions positions edges)).2 = Threw.
Proof.
  induction edges as [|e edges IH]; intros Hbad; [destruct Hbad; constructor|].
  unfold edgePositions in *. cbn [fmap list_fmap forEachDrawEdge].
  destruct (positions !! from e) as [tail|] eqn:Htail; [|reflexivity].
  destruct (positions !! to e) as [tip|] eqn:Htip; [|reflexivity].
  destruct (forEachDrawEdge canvas _) as [drawn c]. simpl in *. apply IH.
  intros Hall. apply Hbad. constructor; [|assumption].
  split; eapply lookup_lt_Some; eassumption.
Qed.

Lemma edges_in_range (adjacencyList : adjacency) :
  Forall (fun e => from e < length adjacencyList ∧ to e < length adjacencyList)
         (getEdges adjacencyList)
  ↔ wellFormed adjacencyList.
Proof.
  rewrite Forall_forall, wellFormed_lists. setoid_rewrite elem_of_getEdges. split.
  - intros Hdef u v Huv. now destruct (Hdef (mkEdge u v) Huv).
  - intros Hwf e He. split; [|exact (Hwf _ _ He)].
    destruct He as (row & Hrow & _). eapply lookup_lt_Some; eassumption.
Qed.

Lemma drawFrame_wellFormed (canvas : Canvas num) adjacencyList positions :
  wellFormed adjacencyList →
  length positions = length adjacencyList →
  drawFrame canvas (getEdges adjacencyList) positions
    = (clear canvas ++ mjoin (drawVertex canvas <$> positions)
         ++ mjoin ((fun e => drawEdge canvas (positions !!! from e)
                               (positions !!! to e))
                     <$> getEdges adjacencyList),
       Returned).
Proof.
  intros Hwf Hlen. unfold drawFrame.
  rewrite forEachDrawEdge_defined; [reflexivity|].
  rewrite Hlen. now apply edges_in_range.
Qed.

Lemma drawFrame_malformed (canvas : Canvas num) adjacencyList positions :
  ¬ wellFormed adjacencyList →
  length positions = length adjacencyList →
  ∃ arrows,
    drawFrame canvas (getEdges adjacencyList) positions
      = (clear canvas ++ mjoin (drawVertex canvas <$> positions) ++ arrows, Threw).
Proof.
  intros Hwf Hlen. unfold drawFrame.
  pose proof (forEachDrawEdge_undefined canvas positions (getEdges adjacencyList))
    as Hthrew.
  destruct (forEachDrawEdge canvas _) as [arrows c]. simpl in Hthrew.
  rewrite Hthrew; [eauto|]. rewrite Hlen. now rewrite edges_in_range.
Qed.

Lemma length_drawVertex canvas_width canvas_height vertexRadius (pos : vec num) :
  length (drawVertex (initCanvas canvas_width canvas_height vertexRadius) pos) = 3.
Proof. now destruct pos. Qed.

Lemma length_drawEdge canvas_width canvas_height vertexRadius (tail tip : vec num) :
  length (drawEdge (initCanvas canvas_width canvas_height vertexRadius) tail tip)
    = 11.
Proof. now destruct tail, tip. Qed.

Lemma length_join_const {A B : Type} (f : A → list B) (n : nat) (l : list A) :
  (∀ a, length (f a) = n) → length (mjoin (f <$> l)) = length l * n.
Proof.
  intros Hf. induction l as [|a l IH]; [reflexivity|].
  change (mjoin (f <$> a :: l)) with (f a ++ mjoin (f <$> l)).
  rewrite length_app, Hf, IH. simpl. lia.
Qed.

(** X7: a frame is drawn to its end exactly when every target of the graph
    is a vertex.  The canvas is then cleared, every vertex drawn in vertex
    order and every edge of [getEdges] in its order: 1 + 3 N + 11 E context
    calls.  On a malformed graph the frame throws while it draws the edges,
    the canvas cleared and all vertices drawn. *)
Theorem drawFrame_completes_iff_wellFormed (canvas_width canvas_height : num)
    (vertexRadius : option num) (adjacencyList : adjacency)
    (positions : list (vec num)) :
  length positions = length adjacencyList →
  let canvas := initCanvas canvas_width canvas_height vertexRadius in
  let frame := drawFrame canvas (getEdges adjacencyList) positions in
  (frame.2 = Returned ↔ wellFormed adjacencyList)
  ∧ (∃ arrows,
       frame.1 = clear canvas ++ mjoin (drawVertex canvas <$> positions) ++ arrows)
  ∧ (wellFormed adjacencyList →
     frame.1 = clear canvas ++ mjoin (drawVertex canvas <$> positions)
                 ++ mjoin ((fun e => drawEdge canvas (positions !!! from e)
                                       (positions !!! to e))
                             <$> getEdges adjacencyList)
     ∧ length frame.1
       = 1 + 3 * length adjacencyList + 11 * length (getEdges adjacencyList)).
Proof.
  intros Hlen canvas frame. subst frame canvas.
  destruct (decide (wellFormed adjacencyList)) as [Hwf|Hwf].
  - rewrite (drawFrame_wellFormed _ _ _ Hwf Hlen). cbn [fst snd].
    split; [tauto|]. split; [eauto|]. intros _. split; [reflexivity|].
    rewrite !length_app.
    rewrite (length_join_const _ 3) by apply length_drawVertex.
    rewrite (length_join_const _ 11) by (intros e; apply length_drawEdge).
    rewrite Hlen. simpl. lia.
  - destruct (drawFrame_malformed (initCanvas canvas_width canvas_height vertexRadius)
                _ _ Hwf Hlen) as [arrows ->]. cbn [fst snd].
    split; [split; [discriminate|contradiction]|]. split; [eauto|contradiction].
Qed.

Lemma animate_loop random (canvas : Canvas num) adjacencyList vertexDistance
    iterations n :
  wellFormed adjacencyList →
  ∀ fuel w i ref positions,
    heap w !! ref = Some positions →
    length positions = length adjacencyList →
    n = Z.to_nat (iterations - i) →
    n < fuel →
    animate fuel random canvas (getEdges adjacencyList) w
      (mkGenerator adjacencyList vertexDistance iterations (GenLoop i ref))
    = Some ((fun snapshot =>
               (drawFrame canvas (getEdges adjacencyList) snapshot).1)
              <$> steps adjacencyList vertexDistance n positions,
            Returned).
Proof.
  intros Hwf. induction n as [|n IH]; intros fuel w i ref positions Href Hlen Hn Hfuel.
  - destruct fuel as [|fuel]; [lia|]. cbn [animate].
    now rewrite next_loop_exit by lia.
  - destruct fuel as [|fuel]; [lia|].
    pose proof (makeLayout_relaxed adjacencyList vertexDistance positions Hwf Hlen)
      as Hstep.
    set (positions' := _ <$> seq 0 _) in Hstep.
    assert (Hlen' : length positions' = length adjacencyList)
      by (subst positions'; now rewrite length_fmap, length_seq).
    cbn [animate steps]. rewrite Hstep.
    rewrite (next_loop_step _ _ _ _ _ _ _ positions positions') by (assumption || lia).
    cbn [heap]. rewrite list_lookup_middle by reflexivity.
    rewrite (drawFrame_wellFormed canvas _ _ Hwf Hlen').
    rewrite (IH fuel _ (i + 1)%Z (length (heap w)) positions').
    + simpl. now rewrite (drawFrame_wellFormed canvas _ _ Hwf Hlen').
    + simpl. now rewrite list_lookup_middle.
    + assumption.
    + lia.
    + lia.
Qed.

Lemma animate_start random (canvas : Canvas num) adjacencyList vertexDistance
    iterations fuel w :
  wellFormed adjacencyList →
  Z.to_nat iterations + 2 ≤ fuel →
  animate fuel random canvas (getEdges adjacencyList) w
    (mkGenerator adjacencyList vertexDistance iterations GenStart)
  = Some ((fun snapshot => (drawFrame canvas (getEdges adjacencyList) snapshot).1)
            <$> (let initial :=
                   initialPosition random vertexDistance (draws w)
                     <$> seq 0 (length adjacencyList) in
                 initial
                   :: steps adjacencyList vertexDistance (Z.to_nat iterations)
                        initial),
          Returned).
Proof.
  intros Hwf Hfuel. destruct fuel as [|fuel]; [lia|].
  cbn [animate]. rewrite next_start. cbn [heap].
  rewrite list_lookup_middle by reflexivity.
  set (initial := _ <$> seq 0 _).
  assert (Hlen : length initial = length adjacencyList)
    by (subst initial; now rewrite length_fmap, length_seq).
  rewrite (drawFrame_wellFormed canvas _ _ Hwf Hlen).
  rewrite (animate_loop random canvas adjacencyList vertexDistance iterations
             (Z.to_nat iterations) Hwf fuel _ 0%Z _ initial).
  - simpl. now rewrite (drawFrame_wellFormed canvas _ _ Hwf Hlen).
  - simpl. now rewrite list_lookup_middle.
  - assumption.
  - f_equal. lia.
  - lia.
Qed.


(** X9: on a malformed graph the animation throws while it draws the very
    first frame, before any layout step is computed and whatever the number
    of iterations (zero included, where the generator by itself would not
    throw): the only frame is the partial one of the initial placement, the
    canvas cleared and its vertices drawn. *)
Theorem animate_malformed_throws_in_first_frame (canvas : Canvas num)
    (adjacencyList : adjacency) (vertexDistance : option num)
    (iterations : option Z) (random : nat -> num) (w : World num) (fuel : nat) :
  ¬ wellFormed adjacencyList →
  let d := default lit_100 vertexDistance in
  let initial := initialPosition random d (draws w) <$> seq 0 (length adjacencyList) in
  ∃ arrows,
    animate (S fuel) random canvas (getEdges adjacencyList) w
      (runLayout adjacencyList vertexDistance iterations)
    = Some ([clear canvas ++ mjoin (drawVertex canvas <$> initial) ++ arrows], Threw).
Proof.
  intros Hwf d initial. unfold runLayout. cbn [animate].
  rewrite next_start. cbn [heap]. rewrite list_lookup_middle by reflexivity.
  fold d. fold initial.
  destruct (drawFrame_malformed canvas adjacencyList initial Hwf) as [arrows ->];
    [subst initial; now rewrite length_fmap, length_seq|].
  eauto.
Qed.

Lemma wellFormed_exampleAdjacencyList : wellFormed exampleAdjacencyList.
Proof. unfold wellFormed, exampleAdjacencyList. repeat constructor. Qed.

(** X10: [main.js] (its tests passed) ends: for every random source and
    canvas size it draws exactly 1001 frames of the example graph, each of
    144 context calls (one [clearRect], 11 discs of 3 calls, 10 arrows of
    11), throws nothing, and reaches [alert("finished")] after 1002 calls of
    [next()]. *)
Theorem main_draws_1001_frames (random : nat -> num) (canvas_width canvas_height : num)
    (fuel : nat) :
  1002 ≤ fuel →
  ∃ frames,
    main fuel random canvas_width canvas_height = Some (frames, Returned)
    ∧ length frames = 1001
    ∧ Forall (fun frame => length frame = 144) frames.
Proof.
  intros Hfuel. pose proof wellFormed_exampleAdjacencyList as Hwf.
  unfold main. cbv zeta.
  change (runLayout exampleAdjacencyList None None)
    with (mkGenerator exampleAdjacencyList lit_100 1000%Z GenStart).
  rewrite animate_start by (assumption || lia). cbv zeta.
  eexists. split; [reflexivity|].
  set (initial := _ <$> seq 0 _).
  assert (Hlen : length initial = length exampleAdjacencyList)
    by (subst initial; now rewrite length_fmap, length_seq).
  split.
  - rewrite length_fmap, length_cons, length_steps by assumption. lia.
  - apply Forall_fmap, Forall_forall. intros snapshot Hin.
    assert (Hsnap : length snapshot = length exampleAdjacencyList).
    { apply elem_of_cons in Hin as [->|Hin]; [assumption|].
      pose proof (steps_lengths exampleAdjacencyList lit_100 (Z.to_nat 1000) initial)
        as Hall.
      rewrite Forall_forall in Hall. auto. }
    unfold compose.
    rewrite (drawFrame_wellFormed _ _ _ Hwf Hsnap). cbn [fst].
    rewrite !length_app.
    rewrite (length_join_const _ 3) by apply length_drawVertex.
    rewrite (length_join_const _ 11) by (intros e; apply length_drawEdge).
    rewrite Hsnap. reflexivity.
Qed.

End Animation.
(** ** Vector arithmetic, over the reals *)

Module RealVectors.

Local Open Scope R_scope.


















End RealVectors.
(** ** The forces and the step, over the reals *)



Module RealForces.

Import RealVectors.
Local Open Scope R_scope.











(** *** The sum of the positions *)














Section Projection.
Variable proj : vec R → R.
Hypothesis proj_add : ∀ u v, proj (V.add u v) = proj u + proj v.
Hypothesis proj_scalarMult : ∀ a v, proj (V.scalarMult a v) = a * proj v.
Hypothesis proj_zero : proj (V.mk 0 0) = 0.





End Projection.



End RealForces.
(** ** Degenerate layouts, on binary64 *)

(** The test attached to [rotate] in [vector-math.js]: with the engine's
    values of [Math.cos] and [Math.sin] at [Math.PI / 2], the quarter turn of
    [{x: 1, y: 1}] is [{x: -0.9999999999999999, y: 1}]. *)
#[warnings="-inexact-float"] Lemma rotate_test (log cos sin : float -> float) :
  cos (0x1.921fb54442d18p+0)%float = 0x1.1a62633145c07p-54%float →
  sin (0x1.921fb54442d18p+0)%float = 1%float →
  rotate (Number0 := float_Number log) (Trig0 := float_Trig cos sin)
    (num_div (Number := float_Number log)
       (Math_PI (Trig := float_Trig cos sin)) 2%float)
    (V.mk 1%float 1%float)
  = V.mk (-0.9999999999999999)%float 1%float.
Proof.
  intros Hcos Hsin. unfold rotate. cbn [num_div float_Number Math_PI float_Trig].
  change (0x1.921fb54442d18p+1 / 2)%float with (0x1.921fb54442d18p+0)%float.
  cbn [Math_cos Math_sin float_Trig]. rewrite Hcos, Hsin. reflexivity.
Qed.

Module NaN.

Local Open Scope float_scope.

Lemma Prim2SF_nan : Prim2SF nan = S754_nan.
Proof. reflexivity. Qed.

Lemma add_nan_l (x : float) : nan + x = nan.
Proof. apply Prim2SF_inj. rewrite add_spec, Prim2SF_nan. reflexivity. Qed.

Lemma add_nan_r (x : float) : x + nan = nan.
Proof.
  apply Prim2SF_inj. rewrite add_spec, Prim2SF_nan. now destruct (Prim2SF x).
Qed.

Lemma sub_nan_l (x : float) : nan - x = nan.
Proof. apply Prim2SF_inj. rewrite sub_spec, Prim2SF_nan. reflexivity. Qed.

Lemma sub_nan_r (x : float) : x - nan = nan.
Proof.
  apply Prim2SF_inj. rewrite sub_spec, Prim2SF_nan. now destruct (Prim2SF x).
Qed.

Lemma mul_nan_l (x : float) : nan * x = nan.
Proof. apply Prim2SF_inj. rewrite mul_spec, Prim2SF_nan. reflexivity. Qed.

Lemma mul_nan_r (x : float) : x * nan = nan.
Proof.
  apply Prim2SF_inj. rewrite mul_spec, Prim2SF_nan. now destruct (Prim2SF x).
Qed.

Lemma div_nan_r (x : float) : x / nan = nan.
Proof.
  apply Prim2SF_inj. rewrite FloatAxioms.div_spec, Prim2SF_nan.
  now destruct (Prim2SF x).
Qed.

(** [x - x] is [+0], or NaN when [x] is an infinity or NaN. *)
Lemma sub_self (x : float) : x - x = 0 ∨ x - x = nan.
Proof.
  destruct (Prim2SF x) as [[]|[]| |s m e] eqn:Hx.
  1-2: left; apply Prim2SF_inj; rewrite sub_spec, Hx; reflexivity.
  1-3: right; apply Prim2SF_inj; rewrite sub_spec, Hx; reflexivity.
  left. apply Prim2SF_inj. rewrite sub_spec, Hx.
  unfold SF64sub, SFsub. now rewrite Z.sub_diag.
Qed.

Section Forces.
Context (log : float -> float).
#[local] Instance binary64 : Number float := float_Number log.

Lemma norm_hasNaN (w : vec float) : hasNaN w → V.norm w = nanVec.
Proof.
  destruct w as [x y]. unfold hasNaN, nanVec. simpl.
  intros [-> | ->].
  - rewrite mul_nan_l, add_nan_l. change (sqrt nan) with nan.
    now rewrite div_nan_r, !mul_nan_l.
  - rewrite (mul_nan_l nan), add_nan_r. change (sqrt nan) with nan.
    now rewrite div_nan_r, !mul_nan_l.
Qed.

Lemma norm_sub_self (u : vec float) : V.norm (V.sub u u) = nanVec.
Proof.
  destruct u as [x y]. unfold V.sub. cbn [V.x V.y num_sub binary64 float_Number].
  destruct (sub_self x) as [-> | ->], (sub_self y) as [-> | ->]; reflexivity.
Qed.

Lemma scalarMult_nanVec (a : float) : V.scalarMult a nanVec = nanVec.
Proof. unfold nanVec. simpl. now rewrite mul_nan_r. Qed.

Lemma add_nanVec_l (v : vec float) : V.add nanVec v = nanVec.
Proof. destruct v. unfold nanVec. simpl. now rewrite !add_nan_l. Qed.

Lemma add_nanVec_r (v : vec float) : V.add v nanVec = nanVec.
Proof. destruct v. unfold nanVec. simpl. now rewrite !add_nan_r. Qed.

Lemma sub_hasNaN (p q : vec float) : hasNaN p ∨ hasNaN q → hasNaN (V.sub p q).
Proof.
  destruct p as [x1 y1], q as [x2 y2]. unfold hasNaN. simpl.
  intros [[-> | ->] | [-> | ->]];
    rewrite ?sub_nan_l, ?sub_nan_r; auto.
Qed.

(** Both forces are NaN as soon as the normalised difference is. *)
Lemma forces_nan (u v : vec float) (d : float) :
  V.norm (V.sub u v) = nanVec →
  V.norm (V.sub v u) = nanVec →
  calculateRepulsion u v d = nanVec ∧ calculateSpringForce u v d = nanVec.
Proof.
  intros Huv Hvu. unfold calculateRepulsion, calculateSpringForce.
  rewrite Huv, Hvu. split; apply scalarMult_nanVec.
Qed.

Lemma forces_hasNaN (u v : vec float) (d : float) :
  hasNaN u ∨ hasNaN v →
  calculateRepulsion u v d = nanVec ∧ calculateSpringForce u v d = nanVec.
Proof.
  intros Hnan. apply forces_nan; apply norm_hasNaN, sub_hasNaN; tauto.
Qed.

Lemma vectorSum_nanVec_acc (acc : vec float) (forces : list (vec float)) :
  nanVec ∈ forces → foldl V.add acc forces = nanVec.
Proof.
  revert acc. induction forces as [|f forces IH]; intros acc Hin; [inversion Hin|].
  cbn [foldl]. apply elem_of_cons in Hin as [<- | Hin]; [|auto].
  rewrite add_nanVec_r. clear IH.
  induction forces as [|f forces IH]; [reflexivity|].
  cbn [foldl]. now rewrite add_nanVec_l.
Qed.

Lemma relaxed_nanVec adjacencyList d positions vertex pos :
  (∃ n, n ∈ getAdjacentVertices adjacencyList vertex
        ∧ calculateSpringForce pos (positions !!! n) d = nanVec)
  ∨ (∃ w, w ∈ otherVertices (length adjacencyList) vertex
          ∧ calculateRepulsion pos (positions !!! w) d = nanVec) →
  relaxed adjacencyList d positions vertex pos = nanVec.
Proof.
  unfold relaxed, vectorSum. cbv zeta.
  intros [(n & Hn & Hforce) | (w & Hw & Hforce)].
  - rewrite (vectorSum_nanVec_acc _ (_ <$> getAdjacentVertices _ _)).
    + now rewrite add_nanVec_l, scalarMult_nanVec, add_nanVec_l.
    + apply list_elem_of_fmap. eauto.
  - rewrite (vectorSum_nanVec_acc _ (_ <$> otherVertices _ _)).
    + now rewrite add_nanVec_r, scalarMult_nanVec, add_nanVec_l.
    + apply list_elem_of_fmap. eauto.
Qed.

Lemma forces_on_itself (u : vec float) (d : float) :
  calculateRepulsion u u d = nanVec ∧ calculateSpringForce u u d = nanVec.
Proof. apply forces_nan; apply norm_sub_self. Qed.

(** X20: on binary64 both forces of a point on itself are
    [{x: NaN, y: NaN}], for every point (finite, infinite or NaN), every
    optimum distance and every [Math.log]: the difference is zero or NaN,
    its norm is NaN, and NaN survives the scaling. *)
Theorem forces_at_zero_distance_are_NaN (u : vec float) (d : float) :
  V.norm (V.sub u u) = nanVec
  ∧ calculateRepulsion u u d = nanVec
  ∧ calculateSpringForce u u d = nanVec.
Proof.
  split; [apply norm_sub_self|].
  unfold calculateRepulsion, calculateSpringForce. cbv zeta.
  rewrite norm_sub_self. split; apply scalarMult_nanVec.
Qed.

(** X21: on binary64 a step gives a vertex the position
    [{x: NaN, y: NaN}] as soon as the vertex lists itself as a target or
    another vertex has exactly the same position; the step does not throw. *)
Theorem self_loop_or_coincidence_gives_NaN (adjacencyList : adjacency)
    (d : float) (positions : list (vec float)) (v : nat) (pos : vec float) :
  wellFormed adjacencyList →
  length positions = length adjacencyList →
  positions !! v = Some pos →
  lists adjacencyList v v ∨ (∃ w, w ≠ v ∧ positions !! w = Some pos) →
  ∃ newPositions,
    makeLayout adjacencyList d positions = Some newPositions
    ∧ newPositions !! v = Some nanVec.
Proof.
  intros Hwf Hlen Hpos Hdegenerate.
  assert (Hv : v < length adjacencyList)
    by (rewrite <- Hlen; eapply lookup_lt_Some; eassumption).
  rewrite makeLayout_relaxed by assumption. eexists. split; [reflexivity|].
  rewrite list_lookup_fmap, lookup_seq_lt by assumption. simpl. f_equal.
  rewrite (list_lookup_total_correct _ _ _ Hpos).
  apply relaxed_nanVec. destruct Hdegenerate as [Hloop | (w & Hne & Hw)].
  - left. exists v. split; [apply elem_of_getAdjacentVertices; now left|].
    rewrite (list_lookup_total_correct _ _ _ Hpos).
    apply forces_on_itself.
  - right. exists w. split.
    + apply elem_of_otherVertices; [assumption|]. split; [|assumption].
      rewrite <- Hlen. eapply lookup_lt_Some; eassumption.
    + rewrite (list_lookup_total_correct _ _ _ Hw).
      apply forces_on_itself.
Qed.

Lemma makeLayout_hasNaN (adjacencyList : adjacency)
    (d : float) (positions : list (vec float)) (w : nat) (pos : vec float) :
  wellFormed adjacencyList →
  length positions = length adjacencyList →
  2 ≤ length adjacencyList →
  positions !! w = Some pos →
  hasNaN pos →
  makeLayout adjacencyList d positions
    = Some (replicate (length adjacencyList) nanVec).
Proof.
  intros Hwf Hlen HN Hw Hnan.
  assert (Hwlt : w < length adjacencyList)
    by (rewrite <- Hlen; eapply lookup_lt_Some; eassumption).
  rewrite makeLayout_relaxed by assumption. f_equal.
  apply list_eq. intros v. rewrite list_lookup_fmap.
  destruct (decide (v < length adjacencyList)) as [Hv|Hv].
  - rewrite lookup_seq_lt, lookup_replicate_2 by assumption. simpl. f_equal.
    apply relaxed_nanVec. right.
    destruct (decide (w = v)) as [->|Hne].
    + exists (if decide (v = 0%nat) then 1%nat else 0%nat). split.
      * apply elem_of_otherVertices; [assumption|]. case_decide; lia.
      * apply forces_hasNaN. left.
        now rewrite (list_lookup_total_correct _ _ _ Hw).
    + exists w. split; [apply elem_of_otherVertices; auto|].
      apply forces_hasNaN. right.
      now rewrite (list_lookup_total_correct _ _ _ Hw).
  - rewrite lookup_seq_ge by lia. symmetry. apply lookup_replicate_None. lia.
Qed.

(** X22: on binary64 NaN spreads in one step: on a well-formed graph of at
    least two vertices, one position with a NaN coordinate makes the step
    return [{x: NaN, y: NaN}] for every vertex; such a snapshot is again of
    that kind, so all later snapshots of a run are NaN throughout. *)
Theorem NaN_spreads_to_every_vertex (adjacencyList : adjacency)
    (d : float) (positions : list (vec float)) (w : nat) (pos : vec float) :
  wellFormed adjacencyList →
  length positions = length adjacencyList →
  2 ≤ length adjacencyList →
  positions !! w = Some pos →
  hasNaN pos →
  makeLayout adjacencyList d positions
    = Some (replicate (length adjacencyList) nanVec)
  ∧ ∀ n, steps adjacencyList d n positions
         = replicate n (replicate (length adjacencyList) nanVec).
Proof.
  intros Hwf Hlen HN Hw Hnan.
  pose proof (makeLayout_hasNaN _ d _ _ _ Hwf Hlen HN Hw Hnan) as Hstep.
  split; [exact Hstep|]. intros n. destruct n as [|n]; [reflexivity|].
  cbn [steps]. rewrite Hstep. cbn [replicate]. f_equal. clear Hstep.
  induction n as [|n IH]; [reflexivity|].
  cbn [steps].
  rewrite (makeLayout_hasNaN _ d _ 0%nat nanVec Hwf).
  - cbn [replicate]. now rewrite IH.
  - apply length_replicate.
  - assumption.
  - apply lookup_replicate_2. lia.
  - now left.
Qed.

End Forces.

End NaN.
(** ** The test driver *)

Section TestDriver.
Context {name value : Type}.

Lemma attachTests_failed {T : Type} (testee : T) verbose
    (tests : list (T → option bool → bool * list (message name value))) console :
  foldl (fun '(allGood, console) test =>
           if allGood : bool then
             let '(result, written) := test testee verbose in
             (result, console ++ written)
           else (false, console))
        (false, console) tests
  = (false, console).
Proof. induction tests as [|test tests IH]; [reflexivity|]. simpl. exact IH. Qed.

Lemma attachTests_console {T : Type} (testee : T) verbose
    (tests : list (T → option bool → bool * list (message name value))) console :
  foldl (fun '(allGood, console) test =>
           if allGood : bool then
             let '(result, written) := test testee verbose in
             (result, console ++ written)
           else (false, console))
        (true, console) tests
  = let '(result, written) := untilFailure ((fun test => test testee verbose) <$> tests) in
    (result, console ++ written).
Proof.
  revert console. induction tests as [|test tests IH]; intros console.
  - simpl. now rewrite app_nil_r.
  - cbn [foldl fmap list_fmap untilFailure].
    destruct (test testee verbose) as [[|] written].
    + rewrite IH. destruct (untilFailure _) as [result' written'].
      now rewrite app_assoc.
    + now rewrite attachTests_failed.
Qed.

Lemma attachTests_untilFailure {T : Type} (testee : T)
    (tests : list (T → option bool → bool * list (message name value))) verbose :
  attachTests testee tests verbose
    = untilFailure ((fun test => test testee verbose) <$> tests).
Proof.
  unfold attachTests. rewrite attachTests_console.
  now destruct (untilFailure _) as [result written].
Qed.

Lemma untilFailure_passed (results : list (bool * list (message name value))) :
  Forall (fun r => r.1 = true) results →
  untilFailure results = (true, mjoin (snd <$> results)).
Proof.
  induction 1 as [|[result written] results Hr _ IH]; [reflexivity|].
  simpl in Hr. subst result. cbn [untilFailure]. now rewrite IH.
Qed.

Lemma untilFailure_failing (passed rest : list (bool * list (message name value)))
    (failing : bool * list (message name value)) :
  Forall (fun r => r.1 = true) passed →
  failing.1 = false →
  untilFailure (passed ++ failing :: rest)
    = (false, mjoin (snd <$> passed) ++ failing.2).
Proof.
  intros Hpassed Hfailing.
  induction Hpassed as [|[result written] passed Hr _ IH].
  - destruct failing as [result written]. simpl in *. now subst result.
  - simpl in Hr. subst result. cbn [app untilFailure]. rewrite IH.
    cbn [fmap list_fmap mjoin list_join snd]. now rewrite app_assoc.
Qed.

Lemma untilFailure_verdict (results : list (bool * list (message name value))) :
  (untilFailure results).1 = forallb fst results.
Proof.
  induction results as [|[[|] written] results IH]; [reflexivity| |reflexivity].
  cbn [untilFailure forallb fst andb]. rewrite <- IH.
  now destruct (untilFailure results).
Qed.

(** X23: the tests attached to a function run in order and stop at the
    first failure.  The verdict of [testee.test] is the conjunction of the
    verdicts; when a test fails after tests that pass, the console holds
    the output of those and of the failing one, and no later test is run;
    when all pass it holds the output of all. *)
Theorem attachTests_stops_at_first_failure {T : Type} (testee : T)
    (tests : list (T → option bool → bool * list (message name value)))
    (verbose : option bool) :
  (attachTests testee tests verbose).1
    = forallb (fun test => (test testee verbose).1) tests
  ∧ (∀ passed failing rest,
       tests = passed ++ failing :: rest →
       Forall (fun test => (test testee verbose).1 = true) passed →
       (failing testee verbose).1 = false →
       attachTests testee tests verbose
         = (false,
            mjoin ((fun test => (test testee verbose).2) <$> passed)
              ++ (failing testee verbose).2))
  ∧ (Forall (fun test => (test testee verbose).1 = true) tests →
     attachTests testee tests verbose
       = (true, mjoin ((fun test => (test testee verbose).2) <$> tests))).
Proof.
  rewrite attachTests_untilFailure. split; [|split].
  - rewrite untilFailure_verdict. induction tests as [|test tests IH]; [reflexivity|].
    cbn [fmap list_fmap forallb]. now rewrite IH.
  - intros passed failing rest -> Hpassed Hfailing.
    rewrite fmap_app, fmap_cons, untilFailure_failing.
    + now rewrite <- list_fmap_compose.
    + now apply Forall_fmap.
    + assumption.
  - intros Hpassed. rewrite untilFailure_passed.
    + now rewrite <- list_fmap_compose.
    + now apply Forall_fmap.
Qed.

Lemma testModule_console (source : name) verbose
    (module : list (name * option (option bool → bool * list (message name value))))
    allGood console :
  foldl (fun '(allGood, console) '(member, test) =>
           let '(result, written) :=
             match test with
             | Some test => test verbose
             | None =>
                 (true, if truthy verbose then [console_warn member source] else [])
             end in
           (result && allGood, console ++ written))
        (allGood, console) module
  = (forallb (fun m => match m.2 with
                       | Some test => (test verbose).1
                       | None => true
                       end) module && allGood,
     console
       ++ mjoin ((fun m => match m.2 with
                           | Some test => (test verbose).2
                           | None =>
                               if truthy verbose then [console_warn m.1 source]
                               else []
                           end) <$> module)).
Proof.
  revert allGood console.
  induction module as [|[member test] module IH]; intros allGood console.
  - simpl. now rewrite app_nil_r.
  - cbn [foldl]. destruct test as [test|].
    + destruct (test verbose) as [result written] eqn:Htest. rewrite IH.
      cbn [forallb fmap list_fmap mjoin list_join fst snd]. rewrite Htest.
      cbn [fst snd]. rewrite app_assoc.
      f_equal; try (now destruct (forallb _ module), result, allGood).
    + rewrite IH. cbn [forallb fmap list_fmap mjoin list_join fst snd].
      rewrite app_assoc.
      f_equal; try (now destruct (forallb _ module), allGood).
Qed.

(** X24: unlike the tests of one function, the members of a module do not
    stop at a failure: [testModule] runs the test function of every
    exported member in order, whatever failed before, and its verdict is
    the conjunction of all of them, a member without a test counting as
    passed.  The console holds the output of all, after the announcement
    and with one warning per member without a test when [verbose] is
    truthy. *)
Theorem testModule_runs_every_test (source : name)
    (module : list (name * option (option bool → bool * list (message name value))))
    (verbose : option bool) :
  (testModule source module verbose).1
    = forallb (fun m => match m.2 with
                        | Some test => (test verbose).1
                        | None => true
                        end) module
  ∧ (testModule source module verbose).2
    = (if truthy verbose then [console_info source] else [])
        ++ mjoin ((fun m => match m.2 with
                            | Some test => (test verbose).2
                            | None =>
                                if truthy verbose then [console_warn m.1 source]
                                else []
                            end) <$> module).
Proof.
  unfold testModule. cbv zeta. rewrite testModule_console. cbn [fst snd].
  split; [apply andb_true_r|reflexivity].
Qed.

Lemma assert_quiet func successful (args actual expected : value) :
  (assert (name := name) func successful args actual expected (Some false)).2 = []
  ↔ (assert func successful args actual expected (Some false)).1 = true.
Proof. destruct successful; simpl; split; (reflexivity || discriminate). Qed.

Lemma untilFailure_quiet (results : list (bool * list (message name value))) :
  Forall (fun r => r.2 = [] ↔ r.1 = true) results →
  (untilFailure results).2 = [] ↔ (untilFailure results).1 = true.
Proof.
  induction 1 as [|[result written] results Hr _ IH]; [done|].
  cbn [untilFailure]. simpl in Hr. destruct result.
  - destruct (untilFailure results) as [result' written']. simpl in *.
    rewrite (proj2 Hr eq_refl). exact IH.
  - simpl. exact Hr.
Qed.

(** X25: tests that report through [assert] are silent exactly when they
    pass: run with [verbose = false], the tests attached to a function leave
    the console empty if and only if the verdict is [true].  With [verbose]
    left out the default of [assert] applies instead, and a passing run
    writes one line per test. *)
Theorem attachTests_silent_iff_passed {T : Type} (testee : T)
    (tests : list (T → option bool → bool * list (message name value))) :
  Forall reportsThroughAssert tests →
  ((attachTests testee tests (Some false)).2 = []
   ↔ (attachTests testee tests (Some false)).1 = true)
  ∧ ((attachTests testee tests None).1 = true →
     length (attachTests testee tests None).2 = length tests).
Proof.
  intros Hreport. rewrite !attachTests_untilFailure. split.
  - apply untilFailure_quiet, Forall_fmap.
    eapply Forall_impl; [exact Hreport|]. intros test Htest. simpl.
    destruct (Htest testee (Some false))
      as (func & successful & args & actual & expected & ->).
    apply assert_quiet.
  - induction Hreport as [|test tests Htest _ IH]; [reflexivity|].
    cbn [fmap list_fmap untilFailure].
    destruct (Htest testee None)
      as (func & successful & args & actual & expected & ->).
    destruct successful; [|discriminate]. simpl.
    destruct (untilFailure _) as [result' written']. simpl in *.
    intros Hpassed. now rewrite IH.
Qed.

(** X26: [runTests] is silent on success and only then: called without an
    argument (or with [false]) on a module whose test functions are silent
    exactly when they pass, it writes nothing to the console if and only if
    its verdict is [true]. *)
Theorem runTests_silent_iff_passed (source : name)
    (module : list (name * option (option bool → bool * list (message name value))))
    (verbose : option bool) :
  default false verbose = false →
  Forall (fun m => ∀ test, m.2 = Some test →
                     ((test (Some false)).2 = [] ↔ (test (Some false)).1 = true))
         module →
  (runTests source module verbose).2 = []
  ↔ (runTests source module verbose).1 = true.
Proof.
  intros Hverbose Hquiet. unfold runTests. cbv zeta. rewrite Hverbose.
  destruct (testModule_runs_every_test source module (Some false)) as [-> ->].
  change (truthy (Some false)) with false. cbv iota. cbn [app].
  induction Hquiet as [|[member [test|]] module Hm _ IH].
  - done.
  - cbn [fmap list_fmap mjoin list_join forallb fst snd].
    specialize (Hm test eq_refl). simpl in Hm.
    rewrite andb_true_iff. split.
    + intros Happ. apply app_eq_nil in Happ as [Htest Hrest].
      split; [now apply Hm|now apply IH].
    + intros [Htest Hrest]. apply Hm in Htest. apply IH in Hrest.
      rewrite Htest. exact Hrest.
  - cbn [fmap list_fmap mjoin list_join forallb fst snd app andb]. exact IH.
Qed.

End TestDriver.
(** ** Instances of the further properties *)

Module Instances.

Local Open Scope R_scope.

Lemma not_wellFormed_danglingTarget : ¬ wellFormed danglingTarget.
Proof.
  intros Hwf. inversion Hwf as [|? ? Hrow _]. inversion Hrow as [|? ? Hlt _].
  simpl in Hlt. lia.
Defined.


Lemma makeLayout_throws_iff_malformed_witness :
  length [V.mk 0 0] = length danglingTarget
  ∧ ¬ wellFormed danglingTarget
  ∧ makeLayout danglingTarget 5 [V.mk 0 0] = None.
Proof.
  split; [reflexivity|]. split; [exact not_wellFormed_danglingTarget|].
  exact (proj2 (makeLayout_throws_iff_malformed danglingTarget 5 [V.mk 0 0] eq_refl)
           not_wellFormed_danglingTarget).
Defined.

Lemma runLayout_malformed_throws_at_first_step_witness :
  ¬ wellFormed danglingTarget
  ∧ (1 ≤ 3)%Z
  ∧ ∀ m, (pull reciprocals (2 + m) (mkWorld [] 0)
            (runLayout danglingTarget (Some 100) (Some 3%Z))).1.1
         = [Yielded 0%nat; Thrown] ++ replicate m Finished.
Proof.
  split; [exact not_wellFormed_danglingTarget|]. split; [lia|]. intros m.
  exact (f_equal fst
           (runLayout_malformed_throws_at_first_step danglingTarget 100 3
              reciprocals (mkWorld [] 0) not_wellFormed_danglingTarget
              ltac:(lia) m)).
Defined.

Lemma generator_closed_stays_closed_witness :
  (∀ value,
     (next reciprocals (mkWorld [] 0)
        (mkGenerator twoVertices 100 0%Z GenDone)).1.1 ≠ Yielded value)
  ∧ (pull reciprocals 3 (mkWorld [] 0) (mkGenerator twoVertices 100 0%Z GenDone)).1
    = ([Finished; Finished; Finished], mkWorld [] 0).
Proof.
  assert (Hno : ∀ value,
            (next reciprocals (mkWorld [] 0)
               (mkGenerator twoVertices 100 0%Z GenDone)).1.1 ≠ Yielded value)
    by (intros value; discriminate).
  split; [exact Hno|].
  exact (proj2 (generator_closed_stays_closed reciprocals reciprocals
                  (mkWorld [] 0) (mkGenerator twoVertices 100 0%Z GenDone) 3 Hno)).
Defined.

Lemma runLayout_yields_fresh_full_snapshots_witness :
  (pull reciprocals 1 (mkWorld [] 0) (runLayout twoVertices (Some 100) None)).1.1
    !! 0%nat = Some (Yielded 0%nat)
  ∧ ∃ snapshot,
      heap (pull reciprocals 1 (mkWorld [] 0)
              (runLayout twoVertices (Some 100) None)).1.2 !! 0%nat
        = Some snapshot
      ∧ length snapshot = 2%nat.
Proof.
  split; [reflexivity|].
  exact (proj2 (runLayout_yields_fresh_full_snapshots twoVertices (Some 100) None
                  reciprocals (mkWorld [] 0) 1 0 0 eq_refl)).
Defined.

Lemma drawFrame_completes_iff_wellFormed_witness :
  length apart = length twoVertices
  ∧ wellFormed twoVertices
  ∧ (drawFrame (initCanvas 800 600 None) (getEdges twoVertices) apart).2 = Returned.
Proof.
  split; [reflexivity|]. split; [exact Examples.wellFormed_twoVertices|].
  destruct (drawFrame_completes_iff_wellFormed 800 600 None twoVertices apart
              eq_refl) as (Hiff & _).
  exact (proj2 Hiff Examples.wellFormed_twoVertices).
Defined.


Lemma animate_malformed_throws_in_first_frame_witness :
  ¬ wellFormed danglingTarget
  ∧ ∃ frame,
      animate 1 reciprocals (initCanvas 800 600 None) (getEdges danglingTarget)
        (mkWorld [] 0) (runLayout danglingTarget None (Some 0%Z))
      = Some ([frame], Threw).
Proof.
  split; [exact not_wellFormed_danglingTarget|].
  destruct (animate_malformed_throws_in_first_frame (initCanvas 800 600 None)
              danglingTarget None (Some 0%Z) reciprocals (mkWorld [] 0) 0
              not_wellFormed_danglingTarget) as [arrows Hrun].
  eexists. exact Hrun.
Defined.

Lemma main_draws_1001_frames_witness :
  (1002 ≤ 1002)%nat
  ∧ ∃ frames,
      main 1002 reciprocals 800 600 = Some (frames, Returned)
      ∧ length frames = 1001%nat.
Proof.
  split; [lia|].
  destruct (main_draws_1001_frames reciprocals 800 600 1002 ltac:(lia))
    as (frames & Hmain & Hlen & _).
  exists frames. split; assumption.
Defined.









Lemma self_loop_or_coincidence_gives_NaN_witness :
  wellFormed selfLoop
  ∧ length [V.mk 1%float 2%float] = length selfLoop
  ∧ lists selfLoop 0 0
  ∧ ∃ newPositions,
      makeLayout (Number0 := float_Number (fun x => x)) selfLoop 100%float
        [V.mk 1%float 2%float] = Some newPositions
      ∧ newPositions !! 0%nat = Some nanVec.
Proof.
  assert (Hwf : wellFormed selfLoop) by (repeat constructor).
  assert (Hloop : lists selfLoop 0 0)
    by (exists [0%nat]; split; [reflexivity|apply list_elem_of_singleton; reflexivity]).
  split; [exact Hwf|]. split; [reflexivity|]. split; [exact Hloop|].
  exact (NaN.self_loop_or_coincidence_gives_NaN (fun x => x) selfLoop 100%float
           [V.mk 1%float 2%float] 0 (V.mk 1%float 2%float) Hwf eq_refl eq_refl
           (or_introl Hloop)).
Defined.

Lemma NaN_spreads_to_every_vertex_witness :
  wellFormed twoVertices
  ∧ length [V.mk nan 0%float; V.mk 3%float 4%float] = length twoVertices
  ∧ (2 ≤ length twoVertices)%nat
  ∧ hasNaN (V.mk nan 0%float)
  ∧ makeLayout (Number0 := float_Number (fun x => x)) twoVertices 100%float
      [V.mk nan 0%float; V.mk 3%float 4%float]
    = Some [nanVec; nanVec].
Proof.
  assert (HN : (2 ≤ length twoVertices)%nat) by (simpl; lia).
  assert (Hnan : hasNaN (V.mk nan 0%float)) by (left; reflexivity).
  split; [exact Examples.wellFormed_twoVertices|]. split; [reflexivity|].
  split; [exact HN|]. split; [exact Hnan|].
  exact (proj1 (NaN.NaN_spreads_to_every_vertex (fun x => x) twoVertices 100%float
                  [V.mk nan 0%float; V.mk 3%float 4%float] 0 (V.mk nan 0%float)
                  Examples.wellFormed_twoVertices eq_refl HN eq_refl Hnan)).
Defined.

Lemma reportsThroughAssert_passingTest : reportsThroughAssert passingTest.
Proof. intros testee verbose. exists 1%nat, true, 0%nat, 0%nat, 0%nat. reflexivity. Defined.

Lemma attachTests_stops_at_first_failure_witness :
  Forall (fun test => (test () (Some false)).1 = true) [passingTest]
  ∧ (failingTest () (Some false)).1 = false
  ∧ attachTests () [passingTest; failingTest; passingTest] (Some false)
    = (false, [console_error 2%nat 0%nat 0%nat 1%nat]).
Proof.
  assert (Hpassed : Forall (fun test => (test () (Some false)).1 = true) [passingTest])
    by (repeat constructor).
  split; [exact Hpassed|]. split; [reflexivity|].
  destruct (attachTests_stops_at_first_failure ()
              [passingTest; failingTest; passingTest] (Some false))
    as (_ & Hfailing & _).
  exact (Hfailing [passingTest] failingTest [passingTest] eq_refl Hpassed eq_refl).
Defined.

Lemma attachTests_silent_iff_passed_witness :
  Forall reportsThroughAssert [passingTest; passingTest]
  ∧ ((attachTests () [passingTest; passingTest] (Some false)).2 = []
     ↔ (attachTests () [passingTest; passingTest] (Some false)).1 = true)
  ∧ length (attachTests () [passingTest; passingTest] None).2 = 2%nat.
Proof.
  assert (Hreport : Forall reportsThroughAssert [passingTest; passingTest])
    by (repeat constructor; exact reportsThroughAssert_passingTest).
  split; [exact Hreport|].
  destruct (attachTests_silent_iff_passed () [passingTest; passingTest] Hreport)
    as [Hquiet Hloud].
  split; [exact Hquiet|]. exact (Hloud eq_refl).
Defined.

Lemma runTests_silent_iff_passed_witness :
  default false None = false
  ∧ ((runTests 0%nat [(1%nat, Some (attachTests () [passingTest])); (2%nat, None)]
        None).2 = []
     ↔ (runTests 0%nat [(1%nat, Some (attachTests () [passingTest])); (2%nat, None)]
          None).1 = true).
Proof.
  split; [reflexivity|].
  apply (runTests_silent_iff_passed 0%nat
           [(1%nat, Some (attachTests () [passingTest])); (2%nat, None)] None eq_refl).
  constructor; [|constructor; [|constructor]].
  - intros member [= <-]. split; reflexivity.
  - intros member [=].
Defined.

End Instances.
